(** * Good-sections results of nilmtk: accumulator, merge engine, cache codec

    A shallow embedding of [nilmtk/stats/goodsectionsresults.py].

    Timestamps and time deltas are integers of one common unit.  The
    [TimeFrame] objects held by an accumulator are Python objects that are
    mutated in place and may be referenced from several lists at once, so
    they live in a store indexed by object identity; every list of
    [TimeFrame]s in the source is a list of identities here.  Python
    exceptions are values of [exn]; a method that can raise returns an
    [outcome]. *)

From Stdlib Require Import ZArith Lia List Bool String Sorted.
From stdpp Require Import base tactics option list.
Import ListNotations.

Local Open Scope Z_scope.

(** ** Exceptions *)

Inductive exn : Set :=
  | IndexError
  | AssertionError
  | ValueError
  | NameError.

Inductive outcome (A : Type) : Type :=
  | Ok (a : A)
  | Raise (e : exn).

Arguments Ok {A} a.
Arguments Raise {A} e.

Notation "'do' x <- e ; k" :=
  (match e with Ok x => k | Raise err => Raise err end)
  (at level 10, x name, e at level 100, k at level 200, only parsing).

(** ** TimeFrame *)

Record TimeFrame : Set := mkTimeFrame {
  start : option Z;
  end_ : option Z;
  include_end : bool
}.

Module TF.

(** Modelled from the spec: the class [nilmtk.timeframe.TimeFrame] is
    imported by the source but not part of it.  "If both bounds are set,
    start <= end; assigning an end that would violate this against the
    current start fails with a ValueError-class error"; an unbounded
    value is always accepted. *)
Definition set_end (new_end : option Z) (tf : TimeFrame) : outcome TimeFrame :=
  match new_end, start tf with
  | Some e, Some s =>
      if e <? s then Raise ValueError
      else Ok (mkTimeFrame (start tf) (Some e) (include_end tf))
  | _, _ => Ok (mkTimeFrame (start tf) new_end (include_end tf))
  end.

(** Modelled from the spec: the setter of [start], symmetric to
    [set_end] ("fails ... if it would invert ordering against the other
    bound"). *)
Definition set_start (new_start : option Z) (tf : TimeFrame) : outcome TimeFrame :=
  match new_start, end_ tf with
  | Some s, Some e =>
      if e <? s then Raise ValueError
      else Ok (mkTimeFrame (Some s) (end_ tf) (include_end tf))
  | _, _ => Ok (mkTimeFrame new_start (end_ tf) (include_end tf))
  end.

(** Modelled from the spec: [include_end] is a plain attribute, "may be
    updated in place". *)
Definition set_include_end (b : bool) (tf : TimeFrame) : TimeFrame :=
  mkTimeFrame (start tf) (end_ tf) b.

(** Modelled from the spec: "construct with (start, end), optionally
    unbounded on either side", [include_end] "default false"; the bounds
    go through the setters. *)
Definition init (s e : option Z) : outcome TimeFrame :=
  do tf <- set_start s (mkTimeFrame None None false);
  set_end e tf.

(** Modelled from the spec: the "equality/containment test against
    another interval's boundary" compares the two bounds. *)
Definition eqb (a b : TimeFrame) : bool :=
  bool_decide (start a = start b) && bool_decide (end_ a = end_ b).

(** [timeframe in sections] *)
Definition mem (tf : TimeFrame) (l : list TimeFrame) : bool :=
  existsb (eqb tf) l.

(** The invariant every constructed [TimeFrame] satisfies. *)
Definition ordered (tf : TimeFrame) : Prop :=
  match start tf, end_ tf with
  | Some s, Some e => s <= e
  | _, _ => True
  end.

End TF.

(** ** The object store *)

Definition addr := nat.

(** Every identity denotes an object; [upd] is assignment to the fields of
    one object and is seen through every reference to it. *)
Definition store := addr -> TimeFrame.

Definition upd (h : store) (a : addr) (tf : TimeFrame) : store :=
  fun x => if Nat.eqb x a then tf else h x.

(** ** The accumulator *)

(** One row of [_data]: the index is the chunk's start, [row_end] the
    column [end], [sections] the list object in the column [sections]. *)
Record Row : Set := mkRow {
  index : Z;
  row_end : Z;
  sections : list addr
}.

Record GoodSectionsResults : Set := mkGSR {
  max_sample_period_td : Z;
  _data : list Row
}.

Module Results.

(** Modelled from the spec: the base class [Results] is imported by the
    source but not part of it.  Its constructor starts with no record. *)
Definition init (max_sample_period : Z) : GoodSectionsResults :=
  mkGSR max_sample_period [].

(** Modelled from the spec: "[append(key, payload)] adds one chunk
    record in caller-supplied order (no re-sorting, no dedup)"; the key
    is the start of the chunk's boundary and the record carries its end.
    A boundary is given by its two timestamps. *)
Definition append (chunk_start chunk_end : Z) (new_sections : list addr)
    (self : GoodSectionsResults) : GoodSectionsResults :=
  mkGSR (max_sample_period_td self)
        (_data self ++ [mkRow chunk_start chunk_end new_sections]).

(** Modelled from the spec: the base [unify] is a no-op for this kind of
    result. *)
Definition unify (self other : GoodSectionsResults) : GoodSectionsResults :=
  self.

End Results.

(** [GoodSectionsResults.__init__] *)
Definition init (max_sample_period : Z) : GoodSectionsResults :=
  Results.init max_sample_period.

(** [GoodSectionsResults.append]: defers to the base class. *)
Definition append (chunk_start chunk_end : Z) (new_sections : list addr)
    (self : GoodSectionsResults) : GoodSectionsResults :=
  Results.append chunk_start chunk_end new_sections self.

(** ** The merge engine: [combined] *)

(** [end_date_of_prev_row is not None and
     end_date_of_prev_row - self.max_sample_period_td <= index
       <= end_date_of_prev_row] *)
Definition adjacent (msp : Z) (prev : option Z) (idx : Z) : bool :=
  match prev with
  | Some p => (p - msp <=? idx) && (idx <=? p)
  | None => false
  end.

(** [sections[-1]] *)
Definition last_item (secs : list addr) : outcome addr :=
  match last secs with
  | Some a => Ok a
  | None => Raise IndexError
  end.

(** [try: ... except ValueError: pass] around one assignment *)
Definition try_assign (h : store) (a : addr) (r : outcome TimeFrame) : outcome store :=
  match r with
  | Ok tf => Ok (upd h a tf)
  | Raise ValueError => Ok h
  | Raise e => Raise e
  end.

(** Lines 51-57: the first conditional of the loop body.  The three
    conjuncts are evaluated left to right; [row_sections[0]] is evaluated
    as soon as the first two hold. *)
Definition stitch (msp : Z) (h : store) (secs : list addr) (prev : option Z)
    (idx : Z) (row_sections : list addr) : outcome (store * list addr) :=
  if adjacent msp prev idx then
    match row_sections with
    | [] => Raise IndexError
    | b :: rest =>
        match start (h b) with
        | Some _ => Ok (h, row_sections)
        | None =>
            do a <- last_item secs;
            match end_ (h a) with
            | Some _ => Raise AssertionError
            | None =>
                do tfa <- TF.set_end (end_ (h b)) (h a);
                Ok (upd h a tfa, rest)
            end
        end
    end
  else Ok (h, row_sections).

(** Lines 62-66 *)
Definition close_last (h : store) (secs : list addr) (prev : option Z) : outcome store :=
  match last secs with
  | None => Ok h
  | Some a =>
      match end_ (h a) with
      | Some _ => Ok h
      | None => try_assign h a (TF.set_end prev (h a))
      end
  end.

(** Lines 67-71 *)
Definition open_first (h : store) (row_sections : list addr) (idx : Z) : outcome store :=
  match row_sections with
  | [] => Ok h
  | b :: _ =>
      match start (h b) with
      | Some _ => Ok h
      | None => try_assign h b (TF.set_start (Some idx) (h b))
      end
  end.

(** The state the loop carries from one row to the next. *)
Record loop_state : Type := mkLoop {
  ls_store : store;
  ls_sections : list addr;
  ls_prev : option Z
}.

(** One iteration of the loop, lines 47-74.  Returns the state after the
    row and the row as the iteration leaves it ([row_sections] is the list
    object of the row, so [pop(0)] is seen in [_data]). *)
Definition combined_row (msp : Z) (st : loop_state) (row : Row)
    : outcome (loop_state * Row) :=
  do stitched <-
     stitch msp (ls_store st) (ls_sections st) (ls_prev st) (index row) (sections row);
  let '(h1, row_sections) := stitched in
  do h2 <- close_last h1 (ls_sections st) (ls_prev st);
  do h3 <- open_first h2 row_sections (index row);
  Ok (mkLoop h3 (ls_sections st ++ row_sections) (Some (row_end row)),
      mkRow (index row) (row_end row) row_sections).

(** The loop over [self._data.iterrows()].  An exception leaves the rows
    not yet visited, and the store, as they are. *)
Fixpoint combined_loop (msp : Z) (st : loop_state) (rows : list Row)
    : loop_state * list Row * option exn :=
  match rows with
  | [] => (st, [], None)
  | row :: rest =>
      match combined_row msp st row with
      | Raise e => (st, rows, Some e)
      | Ok (st1, row1) =>
          let '(st2, rest2, r) := combined_loop msp st1 rest in
          (st2, row1 :: rest2, r)
      end
  end.

(** Lines 76-79 *)
Definition finish (st : loop_state) : store * outcome (list addr) :=
  match last (ls_sections st) with
  | None => (ls_store st, Ok (ls_sections st))
  | Some a =>
      let h := ls_store st in
      let h1 := upd h a (TF.set_include_end true (h a)) in
      match end_ (h1 a) with
      | Some _ => (h1, Ok (ls_sections st))
      | None =>
          match TF.set_end (ls_prev st) (h1 a) with
          | Ok tf => (upd h1 a tf, Ok (ls_sections st))
          | Raise e => (h1, Raise e)
          end
      end
  end.

(** [GoodSectionsResults.combined]: the store and the accumulator after
    the call, and what the call returns or raises. *)
Definition combined (h : store) (self : GoodSectionsResults)
    : store * GoodSectionsResults * outcome (list addr) :=
  let msp := max_sample_period_td self in
  let '(st, rows, r) := combined_loop msp (mkLoop h [] None) (_data self) in
  match r with
  | Some e => (ls_store st, mkGSR msp rows, Raise e)
  | None =>
      let '(h1, res) := finish st in
      (h1, mkGSR msp rows, res)
  end.

(** What a caller sees of a call: the returned [TimeFrame]s read through
    the store the call leaves, or the exception. *)
Definition observe (r : store * GoodSectionsResults * outcome (list addr))
    : outcome (list TimeFrame) :=
  match r with
  | (h, _, Ok secs) => Ok (map h secs)
  | (_, _, Raise e) => Raise e
  end.

(** ** [unify] *)

(** The names the module binds at top level: its six import statements
    and its one class statement. *)
Definition module_globals : list string :=
  ["pd"; "timedelta"; "plt"; "Results"; "SECS_PER_DAY"; "TimeFrame";
   "convert_none_to_nat"; "GoodSectionsResults"]%string.

(** The names Python itself binds: its built-in functions, constants and
    exception classes. *)
Definition builtins : list string :=
  ["abs"; "all"; "any"; "apply"; "basestring"; "bin"; "bool"; "buffer";
   "bytearray"; "callable"; "chr"; "classmethod"; "cmp"; "coerce"; "compile";
   "complex"; "delattr"; "dict"; "dir"; "divmod"; "enumerate"; "eval";
   "execfile"; "file"; "filter"; "float"; "format"; "frozenset"; "getattr";
   "globals"; "hasattr"; "hash"; "help"; "hex"; "id"; "input"; "int";
   "intern"; "isinstance"; "issubclass"; "iter"; "len"; "list"; "locals";
   "long"; "map"; "max"; "memoryview"; "min"; "next"; "object"; "oct";
   "open"; "ord"; "pow"; "print"; "property"; "range"; "raw_input"; "reduce";
   "reload"; "repr"; "reversed"; "round"; "set"; "setattr"; "slice";
   "sorted"; "staticmethod"; "str"; "sum"; "super"; "tuple"; "type";
   "unichr"; "unicode"; "vars"; "xrange"; "zip"; "__import__";
   "None"; "True"; "False"; "NotImplemented"; "Ellipsis"; "__debug__";
   "BaseException"; "Exception"; "StandardError"; "ArithmeticError";
   "AssertionError"; "AttributeError"; "EOFError"; "EnvironmentError";
   "IOError"; "ImportError"; "IndexError"; "KeyError"; "KeyboardInterrupt";
   "LookupError"; "MemoryError"; "NameError"; "NotImplementedError";
   "OSError"; "OverflowError"; "RuntimeError"; "StopIteration";
   "SyntaxError"; "SystemExit"; "TypeError"; "UnboundLocalError";
   "ValueError"; "ZeroDivisionError";
   "Warning"; "UserWarning"; "DeprecationWarning"; "FutureWarning";
   "RuntimeWarning"; "SyntaxWarning"; "ImportWarning"]%string.

(** Looking up a name that is neither local nor bound in the module nor
    built in raises [NameError]. *)
Definition lookup_global (name : string) : outcome string :=
  if existsb (String.eqb name) (module_globals ++ builtins)
  then Ok name else Raise NameError.

(** [GoodSectionsResults.unify], lines 83-86, over the list of warnings
    issued so far. *)
Definition unify (warnings : list string) (self other : GoodSectionsResults)
    : list string * outcome GoodSectionsResults :=
  match lookup_global "warn" with
  | Raise e => (warnings, Raise e)
  | Ok _ =>
      (warnings ++ ["Not yet able to do unification of good sections results."%string],
       Ok (Results.unify self other))
  end.

(** ** The cache codec *)

(** A cell of a timestamp column of the cached table. *)
Inductive cell : Set :=
  | NaT
  | Stamp (t : Z).

(** Modelled from the spec: [convert_none_to_nat] is imported by the
    source but not part of it; "unbounded interval boundaries are encoded
    with an explicit not-a-time sentinel". *)
Definition convert_none_to_nat (o : option Z) : cell :=
  match o with
  | None => NaT
  | Some t => Stamp t
  end.

(** Modelled from the spec: the inverse reading done by the constructor of
    [TimeFrame] on the cells it is given. *)
Definition convert_nat_to_none (c : cell) : option Z :=
  match c with
  | NaT => None
  | Stamp t => Some t
  end.

(** One row of the cached table: its index and its three columns. *)
Record CacheRow : Set := mkCacheRow {
  cache_index : Z;
  cache_end : Z;
  section_start : cell;
  section_end : cell
}.

(** [GoodSectionsResults.export_to_cache], lines 129-138: one row per
    section, in chunk order then in-chunk order. *)
Definition export_row (h : store) (row : Row) : list CacheRow :=
  map (fun a => mkCacheRow (index row) (row_end row)
                  (convert_none_to_nat (start (h a)))
                  (convert_none_to_nat (end_ (h a))))
      (sections row).

Definition export_to_cache (h : store) (self : GoodSectionsResults) : list CacheRow :=
  concat (map (export_row h) (_data self)).

(** [DataFrame.groupby(level=0)] of pandas: one group per distinct index
    value, the groups in ascending order of it, the rows of a group in
    their order in the table. *)
Fixpoint insert_key (k : Z) (ks : list Z) : list Z :=
  match ks with
  | [] => [k]
  | k' :: rest =>
      if k <? k' then k :: ks
      else if k =? k' then ks
      else k' :: insert_key k rest
  end.

Definition group_keys (t : list CacheRow) : list Z :=
  fold_right insert_key [] (map cache_index t).

Definition groupby (t : list CacheRow) : list (Z * list CacheRow) :=
  map (fun k => (k, List.filter (fun r => cache_index r =? k) t)) (group_keys t).

(** [Series.unique()] of pandas: the distinct values, in order of first
    appearance. *)
Fixpoint unique (l : list Z) : list Z :=
  match l with
  | [] => []
  | x :: rest => x :: List.filter (fun y => negb (y =? x)) (unique rest)
  end.

(** A new [TimeFrame] object: an identity no live object has. *)
Definition alloc (h : store) (next : addr) (tf : TimeFrame) : store * addr :=
  (upd h next tf, S next).

(** The list comprehension of lines 116-117.  The store keeps the objects
    built before an exception. *)
Fixpoint new_timeframes (h : store) (next : addr) (group : list CacheRow)
    : store * addr * outcome (list addr) :=
  match group with
  | [] => (h, next, Ok [])
  | r :: rest =>
      match TF.init (convert_nat_to_none (section_start r))
                    (convert_nat_to_none (section_end r)) with
      | Raise e => (h, next, Raise e)
      | Ok tf =>
          let '(h1, next1) := alloc h next tf in
          let '(h2, next2, o) := new_timeframes h1 next1 rest in
          (h2, next2, do l <- o; Ok (next :: l))
      end
  end.

(** The state [import_from_cache] works on. *)
Record import_state : Type := mkImport {
  is_store : store;
  is_next : addr;
  is_self : GoodSectionsResults
}.

(** The body of the loop of [import_from_cache], lines 113-118, for one
    group. *)
Definition import_group (known : list TimeFrame) (st : import_state)
    (g : Z * list CacheRow) : import_state * option exn :=
  let '(name, group) := g in
  if negb (length (unique (map cache_end group)) =? 1)%nat then (st, Some AssertionError)
  else
    match group with
    | [] => (st, Some IndexError)
    | first :: _ =>
        match TF.init (Some name) (Some (cache_end first)) with
        | Raise e => (st, Some e)
        | Ok timeframe =>
            if TF.mem timeframe known then
              let '(h1, next1, o) := new_timeframes (is_store st) (is_next st) group in
              match o with
              | Raise e => (mkImport h1 next1 (is_self st), Some e)
              | Ok timeframes =>
                  (mkImport h1 next1
                     (append name (cache_end first) timeframes (is_self st)), None)
              end
            else (st, None)
        end
    end.

Fixpoint import_groups (known : list TimeFrame) (st : import_state)
    (gs : list (Z * list CacheRow)) : import_state * option exn :=
  match gs with
  | [] => (st, None)
  | g :: rest =>
      match import_group known st g with
      | (st1, Some e) => (st1, Some e)
      | (st1, None) => import_groups known st1 rest
      end
  end.

(** [GoodSectionsResults.import_from_cache], lines 109-118. *)
Definition import_from_cache (st : import_state) (cached_stat : list CacheRow)
    (known : list TimeFrame) : import_state * option exn :=
  import_groups known st (groupby cached_stat).

(** The boundary of the chunk of a record, and the chunk boundaries of an
    accumulator: one [TimeFrame] per record. *)
Definition boundary (r : Row) : TimeFrame :=
  mkTimeFrame (Some (index r)) (Some (row_end r)) false.

Definition chunk_boundaries_of (self : GoodSectionsResults) : list TimeFrame :=
  map boundary (_data self).

(** The round trip of an accumulator through the cache: what [combined]
    gives on a new accumulator of the same tolerance after it has imported
    the exported table against the chunk boundaries of the original; or
    the exception the import raises. *)
Definition roundtrip (h : store) (next : addr) (self : GoodSectionsResults)
    : outcome (list TimeFrame) :=
  match import_from_cache (mkImport h next (init (max_sample_period_td self)))
          (export_to_cache h self) (chunk_boundaries_of self) with
  | (st', None) => observe (combined (is_store st') (is_self st'))
  | (_, Some e) => Raise e
  end.

(** A group of the cached table is stale when it passes the assertion of
    line 113, its boundary can be built, and the boundary is not among the
    known ones. *)
Definition stale (known : list TimeFrame) (g : Z * list CacheRow) : bool :=
  let '(name, group) := g in
  (length (unique (map cache_end group)) =? 1)%nat &&
  match group with
  | [] => false
  | first :: _ =>
      match TF.init (Some name) (Some (cache_end first)) with
      | Ok timeframe => negb (TF.mem timeframe known)
      | Raise _ => false
      end
  end.

(** ** The two-chunk scenarios of the specification *)

(** Two chunks, each with one section: the object [a] in the first, the
    object [b] in the second. *)
Definition two_chunks (msp kA eA kB eB : Z) (secsA secsB : list addr)
    : GoodSectionsResults :=
  append kB eB secsB (append kA eA secsA (init msp)).

(** The store of the concrete scenario: object 0 is the section (2, open
    end), object 1 the section (open start, 15). *)
Definition scenario_store : store :=
  upd (upd (fun _ => mkTimeFrame None None false)
           0%nat (mkTimeFrame (Some 2) None false))
      1%nat (mkTimeFrame None (Some 15) false).

(** Chunks [0,10) and [10,20), [max_sample_period = 1]. *)
Definition scenario_acc : GoodSectionsResults :=
  two_chunks 1 0 10 10 20 [0%nat] [1%nat].

(** ** Vocabulary of the properties *)

(** What [combined] may do to a record: nothing, or remove the first
    element of its list of sections. *)
Definition row_kept (r r' : Row) : Prop :=
  index r' = index r /\ row_end r' = row_end r /\
  (sections r' = sections r \/ sections r' = tail (sections r)).

(** What one group adds to the accumulator: nothing, or one record whose
    boundary is known and whose list of sections is not empty. *)
Definition imported (known : list TimeFrame) (r : Row) : Prop :=
  TF.mem (boundary r) known = true /\ sections r <> [].

(** A section that the cache can carry: its bounds are in order and its
    end is exclusive. *)
Definition cacheable (tf : TimeFrame) : Prop :=
  TF.ordered tf /\ include_end tf = false.

(** What the import needs of a record to rebuild it. *)
Definition importable (h : store) (known : list TimeFrame) (r : Row) : Prop :=
  index r <= row_end r /\ sections r <> [] /\
  TF.mem (boundary r) known = true /\
  Forall (fun a => cacheable (h a)) (sections r).

(** Two records with the same key, the same end and sections of the same
    values. *)
Definition same_row (h1 h2 : store) (r1 r2 : Row) : Prop :=
  index r1 = index r2 /\ row_end r1 = row_end r2 /\
  map h1 (sections r1) = map h2 (sections r2).

Definition same_state (st1 st2 : loop_state) : Prop :=
  map (ls_store st1) (ls_sections st1) = map (ls_store st2) (ls_sections st2) /\
  ls_prev st1 = ls_prev st2.

(** What a step of the loop on one store and the same step on another
    store answer: the same exception, or two states related by [R]. *)
Definition both {A : Type} (R : A -> A -> Prop) (r1 r2 : outcome A) : Prop :=
  match r1, r2 with
  | Ok x1, Ok x2 => R x1 x2
  | Raise e1, Raise e2 => e1 = e2
  | _, _ => False
  end.

(** ** [to_dict] *)

(** The dictionary of one interval. *)
Record interval_dict : Set := mkDict {
  d_start : option Z;
  d_end : option Z
}.

(** Modelled from the spec: [TimeFrame.to_dict] is not part of the source;
    it "serializes to a plain record {start, end} with unbounded sentinel
    mapped to an explicit none marker". *)
Definition TimeFrame_to_dict (tf : TimeFrame) : interval_dict :=
  mkDict (start tf) (end_ tf).

(** The nested dictionary [{'statistics': {'good_sections': [...]}}]. *)
Record statistics_dict : Set := mkStatistics {
  good_sections : list interval_dict
}.

Record result_dict : Set := mkResult {
  statistics : statistics_dict
}.

(** [GoodSectionsResults.to_dict], lines 88-92: the dictionaries are read
    from the objects as the call of [combined] leaves them. *)
Definition to_dict (h : store) (self : GoodSectionsResults)
    : store * GoodSectionsResults * outcome result_dict :=
  let '(h1, self1, r) := combined h self in
  (h1, self1,
   do good_sections_list <- r;
   Ok (mkResult (mkStatistics (map (fun a => TimeFrame_to_dict (h1 a)) good_sections_list)))).

(** ** Vocabulary of the further properties *)

(** An object after some assignments: a bound that was set is still the
    same, and an inclusive end is still inclusive. *)
Definition grows (tf tf' : TimeFrame) : Prop :=
  (forall s, start tf = Some s -> start tf' = Some s) /\
  (forall e, end_ tf = Some e -> end_ tf' = Some e) /\
  (include_end tf = true -> include_end tf' = true).

(** What an assignment made by [combined] does to an object. *)
Definition evolves (tf tf' : TimeFrame) : Prop :=
  grows tf tf' /\ (TF.ordered tf -> TF.ordered tf').

(** No record starts within the tolerance before the end of the record
    that precedes it ([prev] is the end of the record before the first). *)
Fixpoint gapped_from (msp : Z) (prev : option Z) (rows : list Row) : bool :=
  match rows with
  | [] => true
  | r :: rest =>
      negb (adjacent msp prev (index r)) && gapped_from msp (Some (row_end r)) rest
  end.

(** Two stores whose objects have the same bounds. *)
Definition same_bounds (h1 h2 : store) : Prop :=
  forall x, start (h1 x) = start (h2 x) /\ end_ (h1 x) = end_ (h2 x).

(** The store whose objects all have an exclusive end. *)
Definition exclusive (h : store) : store :=
  fun x => mkTimeFrame (start (h x)) (end_ (h x)) false.

(** The [TimeFrame] a row of the cached table describes. *)
Definition row_timeframe (c : CacheRow) : TimeFrame :=
  mkTimeFrame (convert_nat_to_none (section_start c))
              (convert_nat_to_none (section_end c)) false.

(** Two loop states on stores whose objects have the same bounds. *)
Definition same_loop_state (st1 st2 : loop_state) : Prop :=
  same_bounds (ls_store st1) (ls_store st2) /\
  ls_sections st1 = ls_sections st2 /\ ls_prev st1 = ls_prev st2.

(** What the import has added to a state: records on new, distinct
    objects, in increasing key order, each object fit for the cache. *)
Definition added (st st' : import_state) (new : list Row) : Prop :=
  _data (is_self st') = _data (is_self st) ++ new /\
  max_sample_period_td (is_self st') = max_sample_period_td (is_self st) /\
  (is_next st <= is_next st')%nat /\
  (forall x, (x < is_next st)%nat -> is_store st' x = is_store st x) /\
  NoDup (concat (map sections new)) /\
  Forall (fun a => (is_next st <= a < is_next st')%nat /\ cacheable (is_store st' a))
         (concat (map sections new)).

(** A group that [import_from_cache] gets past: its rows have one end,
    and its key is not after it. *)
Definition checked (g : Z * list CacheRow) : Prop :=
  length (unique (map cache_end (snd g))) = 1%nat /\
  exists first, head (snd g) = Some first /\ fst g <= cache_end first.

(** * Properties *)

(** ** The store *)

Lemma upd_eq (h : store) (a : addr) (tf : TimeFrame) : upd h a tf a = tf.
Proof. unfold upd. now rewrite Nat.eqb_refl. Qed.

Lemma upd_ne (h : store) (a x : addr) (tf : TimeFrame) : x <> a -> upd h a tf x = h x.
Proof. intros Hne. unfold upd. now apply Nat.eqb_neq in Hne as ->. Qed.

(** ** Two chunks *)

Lemma adjacent_spec (msp p idx : Z) :
  adjacent msp (Some p) idx = true <-> p - msp <= idx <= p.
Proof. unfold adjacent. rewrite andb_true_iff, !Z.leb_le. tauto. Qed.

Lemma adjacent_within (msp T delta : Z) :
  0 <= delta <= msp -> adjacent msp (Some T) (T - delta) = true.
Proof. intros H. apply adjacent_spec. lia. Qed.

Lemma adjacent_beyond (msp T delta : Z) :
  delta > msp -> adjacent msp (Some T) (T + delta) = false.
Proof.
  intros H. apply not_true_is_false. rewrite adjacent_spec. lia.
Qed.

(** ** The loop of [combined] *)

Lemma stitch_sections (msp : Z) (h : store) (secs : list addr) (prev : option Z)
    (idx : Z) (row_sections : list addr) (h1 : store) (rs : list addr) :
  stitch msp h secs prev idx row_sections = Ok (h1, rs) ->
  rs = row_sections \/ rs = tail row_sections.
Proof.
  unfold stitch. intros H.
  destruct (adjacent msp prev idx); [| left; congruence].
  destruct row_sections as [| b rest]; [discriminate |].
  destruct (start (h b)); [left; congruence |].
  destruct (last_item secs) as [a |]; [| discriminate].
  destruct (end_ (h a)); [discriminate |].
  destruct (TF.set_end (end_ (h b)) (h a)); [| discriminate].
  right. injection H as _ <-. reflexivity.
Qed.

Lemma combined_row_inv (msp : Z) (st st1 : loop_state) (row row1 : Row) :
  combined_row msp st row = Ok (st1, row1) ->
  exists h1 h2,
    stitch msp (ls_store st) (ls_sections st) (ls_prev st) (index row) (sections row)
      = Ok (h1, sections row1) /\
    close_last h1 (ls_sections st) (ls_prev st) = Ok h2 /\
    open_first h2 (sections row1) (index row) = Ok (ls_store st1) /\
    ls_sections st1 = ls_sections st ++ sections row1 /\
    ls_prev st1 = Some (row_end row) /\
    index row1 = index row /\ row_end row1 = row_end row.
Proof.
  unfold combined_row. intros H.
  destruct (stitch _ _ _ _ _ _) as [[h1 rs] |] eqn:Hs; [| discriminate].
  destruct (close_last _ _ _) as [h2 |] eqn:Hc; [| discriminate].
  destruct (open_first _ _ _) as [h3 |] eqn:Ho; [| discriminate].
  injection H as <- <-. exists h1, h2. cbn. repeat split; assumption || reflexivity.
Qed.

Lemma row_kept_refl (r : Row) : row_kept r r.
Proof. unfold row_kept. auto. Qed.

Lemma combined_row_kept (msp : Z) (st st1 : loop_state) (row row1 : Row) :
  combined_row msp st row = Ok (st1, row1) -> row_kept row row1.
Proof.
  intros H. apply combined_row_inv in H as (h1 & h2 & Hs & _ & _ & _ & _ & Hi & He).
  apply stitch_sections in Hs. unfold row_kept. auto.
Qed.

Lemma combined_loop_kept (msp : Z) (rows : list Row) :
  forall st st' rows' r,
    combined_loop msp st rows = (st', rows', r) -> Forall2 row_kept rows rows'.
Proof.
  induction rows as [| row rest IH]; intros st st' rows' r H; cbn in H.
  - injection H as _ <- _. constructor.
  - destruct (combined_row msp st row) as [[st1 row1] | e] eqn:Hrow.
    + destruct (combined_loop msp st1 rest) as [[st2 rest2] r2] eqn:Hrest.
      injection H as _ <- _. constructor.
      * eapply combined_row_kept; eassumption.
      * eapply IH; eassumption.
    + injection H as _ <- _. apply Forall2_same_length_lookup_2; [reflexivity |].
      intros i x y Hx Hy. rewrite Hx in Hy. injection Hy as <-. apply row_kept_refl.
Qed.

Lemma combined_loop_prev (msp : Z) (rows : list Row) :
  forall st st' rows',
    combined_loop msp st rows = (st', rows', None) ->
    ls_prev st' = match last rows with
                  | Some r => Some (row_end r)
                  | None => ls_prev st
                  end.
Proof.
  induction rows as [| row rest IH]; intros st st' rows' H; cbn in H.
  - injection H as <- _. reflexivity.
  - destruct (combined_row msp st row) as [[st1 row1] | e] eqn:Hrow; [| discriminate].
    destruct (combined_loop msp st1 rest) as [[st2 rest2] r2] eqn:Hrest.
    injection H as <- _ ->.
    rewrite (IH _ _ _ Hrest).
    apply combined_row_inv in Hrow as (_ & _ & _ & _ & _ & _ & Hp & _).
    destruct rest as [| r' rest']; [exact Hp |].
    change (last (row :: r' :: rest')) with (last (r' :: rest')).
    destruct (last (r' :: rest')) eqn:E; [reflexivity |].
    apply last_None in E. discriminate.
Qed.

Lemma combined_loop_nil (msp : Z) (st st' : loop_state) (rows' : list Row) (r : option exn) :
  combined_loop msp st [] = (st', rows', r) -> st' = st.
Proof. cbn. congruence. Qed.

Lemma set_end_ok (new_end : option Z) (tf tf' : TimeFrame) :
  TF.set_end new_end tf = Ok tf' ->
  start tf' = start tf /\ end_ tf' = new_end /\ include_end tf' = include_end tf.
Proof.
  unfold TF.set_end. intros H.
  destruct new_end as [e |], (start tf) as [s |];
    try destruct (e <? s); inversion H; subst; cbn; auto.
Qed.

Lemma set_end_raises (new_end : option Z) (tf : TimeFrame) (e : exn) :
  TF.set_end new_end tf = Raise e -> e = ValueError.
Proof.
  unfold TF.set_end.
  destruct new_end as [x |], (start tf) as [y |]; try discriminate.
  destruct (x <? y); [congruence | discriminate].
Qed.

Lemma set_start_raises (new_start : option Z) (tf : TimeFrame) (e : exn) :
  TF.set_start new_start tf = Raise e -> e = ValueError.
Proof.
  unfold TF.set_start.
  destruct new_start as [x |], (end_ tf) as [y |]; try discriminate.
  destruct (y <? x); [congruence | discriminate].
Qed.

(** The guarded assignment to the first section of a row never raises,
    and touches at most that section, and only if its start is open. *)
Lemma open_first_spec (h : store) (rs : list addr) (idx : Z) :
  exists h',
    open_first h rs idx = Ok h' /\
    forall x, head rs <> Some x \/ start (h x) <> None -> h' x = h x.
Proof.
  unfold open_first. destruct rs as [| b rest]; [eauto |].
  destruct (start (h b)) eqn:Hb; [eauto |].
  unfold try_assign. destruct (TF.set_start (Some idx) (h b)) as [tf | e] eqn:Hset.
  - eexists. split; [reflexivity |]. intros x Hx. apply upd_ne. intros ->.
    cbn in Hx. destruct Hx as [Hx | Hx]; [now apply Hx | now apply Hx].
  - apply set_start_raises in Hset as ->. eauto.
Qed.

(** The end of the scan touches the last section only; it makes it
    inclusive, keeps its start, keeps its end if it has one, and can only
    raise [ValueError]. *)
Lemma finish_spec (h : store) (secs : list addr) (prev : option Z) (a : addr) :
  last secs = Some a ->
  exists h' r,
    finish (mkLoop h secs prev) = (h', r) /\
    (forall x, x <> a -> h' x = h x) /\
    start (h' a) = start (h a) /\
    include_end (h' a) = true /\
    (r = Ok secs \/ r = Raise ValueError) /\
    (forall e, end_ (h a) = Some e -> r = Ok secs /\ end_ (h' a) = Some e).
Proof.
  intros La. unfold finish. cbn [ls_sections ls_store ls_prev]. rewrite La.
  cbv zeta. rewrite upd_eq. cbn [TF.set_include_end end_].
  destruct (end_ (h a)) as [e |] eqn:He.
  - eexists _, _. split; [reflexivity |]. rewrite upd_eq. cbn.
    repeat split; auto.
    + intros x Hx. now apply upd_ne.
    + congruence.
  - destruct (TF.set_end prev _) as [tf | x] eqn:Hset.
    + eexists _, _. split; [reflexivity |]. rewrite upd_eq.
      apply set_end_ok in Hset as (Hs & _ & Hi). cbn in Hs, Hi.
      repeat split; auto; try discriminate.
      intros y Hy. now rewrite !upd_ne.
    + apply set_end_raises in Hset as ->.
      eexists _, _. split; [reflexivity |]. rewrite upd_eq. cbn.
      repeat split; auto; try discriminate.
      intros y Hy. now apply upd_ne.
Qed.

Lemma two_rows_first (msp kA T : Z) (h : store) (secsA : list addr) :
  exists h1,
    combined_row msp (mkLoop h [] None) (mkRow kA T secsA)
      = Ok (mkLoop h1 secsA (Some T), mkRow kA T secsA) /\
    forall x, head secsA <> Some x \/ start (h x) <> None -> h1 x = h x.
Proof.
  destruct (open_first_spec h secsA kA) as (h1 & Ho & Hf).
  exists h1. split; [| exact Hf].
  unfold combined_row, stitch, close_last. cbn. now rewrite Ho.
Qed.

Lemma head_snoc_ne (pre : list addr) (a x : addr) :
  x ∉ pre -> x <> a -> head (pre ++ [a]) <> Some x.
Proof.
  intros Hp Ha. destruct pre as [| p pre]; cbn; [congruence |].
  intros [= ->]. apply Hp. apply list_elem_of_here.
Qed.

(** ** The claims on [combined] and [unify] *)

(** C2 (idempotence of [combined]).  On the concrete scenario of the
    specification the first call returns the merged interval (2, 15) and
    has removed the stitched section from the second record; the second
    call on the same accumulator then reaches [row_sections[0]] on an empty
    list and raises [IndexError] instead of returning the same result. *)
Theorem combined_twice_raises :
  let '(h1, self1, r1) := combined scenario_store scenario_acc in
  observe (h1, self1, r1) = Ok [mkTimeFrame (Some 2) (Some 15) true] /\
  observe (combined h1 self1) = Raise IndexError.
Proof. vm_compute. split; reflexivity. Qed.

(** C3, as stated, fails: with the second chunk starting at T + delta for
    delta = 1 <= max_sample_period = 1, [combined] returns two intervals. *)
Lemma adjacency_merge_after_end_fails :
  let delta := 1 in
  let msp := 1 in
  delta <= msp /\
  observe (combined scenario_store (two_chunks msp 0 10 (10 + delta) 20 [0%nat] [1%nat]))
  = Ok [mkTimeFrame (Some 2) (Some 10) false;
        mkTimeFrame (Some 11) (Some 15) true].
Proof. cbv zeta. split; [lia | vm_compute; reflexivity]. Qed.

(** C3, amended (adjacency merge).  Chunk A ends at T and its last
    section, the object [a], starts at s and has an open end; chunk B
    starts at T - delta, with 0 <= delta <= max_sample_period, and its
    first section, the object [b], has an open start and ends at U >= s;
    all the sections are distinct objects.  Then [combined] merges the two
    into the one object [a], from s to U, and drops [b]: it returns the
    sections of A followed by the other sections of B.  (When B has other
    sections, the closing of the very last one may still raise
    [ValueError].)  When B has no other section, [a] is the last interval
    and has [include_end] true.  The concrete scenario of the
    specification is the instance with no other sections and delta = 0. *)
Theorem adjacency_merge (h : store) (msp kA T delta eB s U : Z)
    (pre post : list addr) (a b : addr) (ia ib : bool) :
  NoDup (pre ++ a :: b :: post) ->
  h a = mkTimeFrame (Some s) None ia ->
  h b = mkTimeFrame None (Some U) ib ->
  0 <= delta <= msp ->
  s <= U ->
  let '(h', _, r) :=
    combined h (two_chunks msp kA T (T - delta) eB (pre ++ [a]) (b :: post)) in
  (r = Ok (pre ++ a :: post) \/ (post <> [] /\ r = Raise ValueError)) /\
  start (h' a) = Some s /\ end_ (h' a) = Some U /\
  (post = [] -> r = Ok (pre ++ [a]) /\ include_end (h' a) = true).
Proof.
  intros Hnd Ha Hb Hd Hs.
  apply NoDup_app in Hnd as (_ & Hdis & Hnd).
  apply NoDup_cons in Hnd as [Hab Hnd]. apply NoDup_cons in Hnd as [Hbp _].
  apply not_elem_of_cons in Hab as [Hab Hap].
  assert (Hpa : a ∉ pre) by (intros Hin; apply (Hdis _ Hin), list_elem_of_here).
  assert (Hpb : b ∉ pre).
  { intros Hin. apply (Hdis _ Hin). apply list_elem_of_further, list_elem_of_here. }
  unfold combined, two_chunks, append, Results.append, init, Results.init.
  cbn [_data max_sample_period_td app combined_loop].
  destruct (two_rows_first msp kA T h (pre ++ [a])) as (h1 & -> & Hf1).
  assert (Ha1 : h1 a = h a) by (apply Hf1; right; rewrite Ha; discriminate).
  assert (Hb1 : h1 b = h b) by (apply Hf1; left; apply head_snoc_ne; congruence).
  unfold combined_row. cbn [ls_store ls_sections ls_prev index sections row_end].
  unfold stitch. rewrite adjacent_within by assumption.
  unfold last_item. rewrite last_snoc, Hb1, Hb, Ha1, Ha. cbn [start end_ include_end].
  unfold TF.set_end at 1. cbn [start end_ include_end].
  destruct (Z.ltb_spec U s); [lia |].
  set (h2 := upd h1 a (mkTimeFrame (Some s) (Some U) ia)).
  unfold close_last. rewrite last_snoc. unfold h2 at 1. rewrite upd_eq. cbn [end_].
  destruct (open_first_spec h2 post (T - delta)) as (h3 & -> & Hf3).
  assert (Ha3 : h3 a = mkTimeFrame (Some s) (Some U) ia).
  { rewrite Hf3; [apply upd_eq |]. right. unfold h2. rewrite upd_eq. discriminate. }
  destruct post as [| p post'].
  - rewrite app_nil_r.
    destruct (finish_spec h3 (pre ++ [a]) (Some eB) a (last_snoc _ _))
      as (h' & r & -> & _ & Hst & Hinc & _ & Hend).
    destruct (Hend U) as [-> Hend']; [now rewrite Ha3 |].
    rewrite Hst, Ha3, Hend'. cbn. auto.
  - destruct (last (p :: post')) as [z |] eqn:Hz;
      [| apply last_None in Hz; discriminate].
    assert (Hza : a <> z).
    { intros ->. apply Hap. eapply last_Some_elem_of; eassumption. }
    assert (Hlast : last ((pre ++ [a]) ++ p :: post') = Some z).
    { rewrite last_app, Hz. reflexivity. }
    destruct (finish_spec h3 _ (Some eB) z Hlast)
      as (h' & r & -> & Hoth & _ & _ & Hr & _).
    rewrite (Hoth a Hza), Ha3. rewrite <- app_assoc in Hr. cbn in Hr |- *.
    split; [| repeat split; discriminate].
    destruct Hr as [-> | ->]; [left; reflexivity | right; split; [discriminate | reflexivity]].
Qed.

Lemma adjacency_merge_witness :
  observe (combined scenario_store scenario_acc)
  = Ok [mkTimeFrame (Some 2) (Some 15) true].
Proof.
  pose proof (adjacency_merge scenario_store 1 0 10 0 20 2 15 [] [] 0%nat 1%nat
                false false) as H.
  change (two_chunks 1 0 10 (10 - 0) 20 ([] ++ [0%nat]) [1%nat]) with scenario_acc in H.
  destruct (combined scenario_store scenario_acc) as [[h' g] r].
  destruct H as (_ & Hs & He & Hlast);
    [ apply NoDup_ListNoDup; repeat constructor; cbn; intuition discriminate
    | reflexivity | reflexivity | lia | lia | ].
  destruct (Hlast eq_refl) as [-> Hi]. cbn.
  destruct (h' 0%nat) as [s0 e0 i0]. cbn in Hs, He, Hi. now subst.
Defined.

(** C4 (gap non-merge).  In the same two-chunk setup, with chunk B
    starting at T + delta for delta > max_sample_period, and the two
    boundary sections inside their chunks (s <= T, T + delta <= U),
    [combined] returns two separate intervals for them: [a] closed at A's
    end T, and [b] opened at B's key T + delta.  (When B has other
    sections, the closing of the very last one may still raise
    [ValueError].) *)
Theorem gap_no_merge (h : store) (msp kA T delta eB s U : Z)
    (pre post : list addr) (a b : addr) (ia ib : bool) :
  NoDup (pre ++ a :: b :: post) ->
  h a = mkTimeFrame (Some s) None ia ->
  h b = mkTimeFrame None (Some U) ib ->
  delta > msp ->
  s <= T ->
  T + delta <= U ->
  let '(h', _, r) :=
    combined h (two_chunks msp kA T (T + delta) eB (pre ++ [a]) (b :: post)) in
  (r = Ok (pre ++ a :: b :: post) \/ (post <> [] /\ r = Raise ValueError)) /\
  h' a = mkTimeFrame (Some s) (Some T) ia /\
  start (h' b) = Some (T + delta) /\ end_ (h' b) = Some U /\
  (post = [] -> r = Ok (pre ++ [a; b]) /\ include_end (h' b) = true).
Proof.
  intros Hnd Ha Hb Hd Hs HU.
  apply NoDup_app in Hnd as (_ & Hdis & Hnd).
  apply NoDup_cons in Hnd as [Hab Hnd]. apply NoDup_cons in Hnd as [Hbp _].
  apply not_elem_of_cons in Hab as [Hab Hap].
  assert (Hpa : a ∉ pre) by (intros Hin; apply (Hdis _ Hin), list_elem_of_here).
  assert (Hpb : b ∉ pre).
  { intros Hin. apply (Hdis _ Hin). apply list_elem_of_further, list_elem_of_here. }
  unfold combined, two_chunks, append, Results.append, init, Results.init.
  cbn [_data max_sample_period_td app combined_loop].
  destruct (two_rows_first msp kA T h (pre ++ [a])) as (h1 & -> & Hf1).
  assert (Ha1 : h1 a = h a) by (apply Hf1; right; rewrite Ha; discriminate).
  assert (Hb1 : h1 b = h b) by (apply Hf1; left; apply head_snoc_ne; congruence).
  unfold combined_row. cbn [ls_store ls_sections ls_prev index sections row_end].
  unfold stitch. rewrite adjacent_beyond by assumption.
  unfold close_last. rewrite last_snoc, Ha1, Ha. cbn [start end_ include_end].
  unfold TF.set_end. cbn [start end_ include_end].
  destruct (Z.ltb_spec T s); [lia |]. cbn [try_assign].
  set (h2 := upd h1 a (mkTimeFrame (Some s) (Some T) ia)).
  assert (Hb2 : h2 b = mkTimeFrame None (Some U) ib).
  { unfold h2. rewrite upd_ne by congruence. now rewrite Hb1. }
  unfold open_first. rewrite Hb2. cbn [start end_ include_end].
  unfold TF.set_start. cbn [start end_ include_end].
  destruct (Z.ltb_spec U (T + delta)); [lia |]. cbn [try_assign].
  set (h3 := upd h2 b (mkTimeFrame (Some (T + delta)) (Some U) ib)).
  assert (Ha3 : h3 a = mkTimeFrame (Some s) (Some T) ia).
  { unfold h3, h2. rewrite upd_ne by congruence. apply upd_eq. }
  assert (Hb3 : h3 b = mkTimeFrame (Some (T + delta)) (Some U) ib) by apply upd_eq.
  assert (Hsecs : (pre ++ [a]) ++ b :: post = pre ++ a :: b :: post)
    by now rewrite <- app_assoc.
  rewrite Hsecs.
  destruct post as [| p post'].
  - assert (Hlast : last (pre ++ [a; b]) = Some b).
    { change [a; b] with ([a] ++ [b]). rewrite app_assoc. apply last_snoc. }
    destruct (finish_spec h3 _ (Some eB) b Hlast)
      as (h' & r & -> & Hoth & Hst & Hinc & _ & Hend).
    destruct (Hend U) as [-> Hend']; [now rewrite Hb3 |].
    rewrite (Hoth a Hab), Ha3, Hst, Hb3, Hend'. cbn. auto 10.
  - destruct (last (p :: post')) as [z |] eqn:Hz;
      [| apply last_None in Hz; discriminate].
    pose proof (last_Some_elem_of _ _ Hz) as Hzin.
    assert (Hza : a <> z) by (intros ->; apply Hap; now apply list_elem_of_further).
    assert (Hzb : b <> z) by (intros ->; now apply Hbp).
    assert (Hlast : last (pre ++ a :: b :: p :: post') = Some z).
    { change (a :: b :: p :: post') with ([a; b] ++ p :: post').
      rewrite app_assoc, last_app, Hz. reflexivity. }
    destruct (finish_spec h3 _ (Some eB) z Hlast)
      as (h' & r & -> & Hoth & _ & _ & Hr & _).
    rewrite (Hoth a Hza), (Hoth b Hzb), Ha3, Hb3. cbn.
    split; [| repeat split; discriminate].
    destruct Hr as [-> | ->]; [left; reflexivity | right; split; [discriminate | reflexivity]].
Qed.

Lemma gap_no_merge_witness :
  observe (combined scenario_store (two_chunks 1 0 10 12 20 [0%nat] [1%nat]))
  = Ok [mkTimeFrame (Some 2) (Some 10) false; mkTimeFrame (Some 12) (Some 15) true].
Proof.
  pose proof (gap_no_merge scenario_store 1 0 10 2 20 2 15 [] [] 0%nat 1%nat
                false false) as H.
  change (two_chunks 1 0 10 (10 + 2) 20 ([] ++ [0%nat]) [1%nat])
    with (two_chunks 1 0 10 12 20 [0%nat] [1%nat]) in H.
  destruct (combined scenario_store (two_chunks 1 0 10 12 20 [0%nat] [1%nat]))
    as [[h' g] r].
  destruct H as (_ & Ha & Hs & He & Hlast);
    [ apply NoDup_ListNoDup; repeat constructor; cbn; intuition discriminate
    | reflexivity | reflexivity | lia | lia | lia | ].
  destruct (Hlast eq_refl) as [-> Hi]. cbn. rewrite Ha.
  destruct (h' 1%nat) as [s0 e0 i0]. cbn in Hs, He, Hi. now subst.
Defined.

(** C5 (final inclusivity).  When [combined] returns a non-empty list, its
    last interval has [include_end] true; and if the end of that interval
    was still unbounded when the loop finished, it is now the end of the
    last record. *)
Theorem final_inclusivity (h h' : store) (self self' : GoodSectionsResults)
    (secs : list addr) :
  combined h self = (h', self', Ok secs) ->
  secs <> [] ->
  exists a row,
    last secs = Some a /\
    last (_data self) = Some row /\
    include_end (h' a) = true /\
    (forall st rows,
       combined_loop (max_sample_period_td self) (mkLoop h [] None) (_data self)
         = (st, rows, None) ->
       end_ (ls_store st a) = None ->
       end_ (h' a) = Some (row_end row)).
Proof.
  unfold combined. intros H Hne.
  destruct (combined_loop _ _ _) as [[st rows] r] eqn:Hloop.
  destruct r as [e |]; [discriminate |].
  pose proof (combined_loop_prev _ _ _ _ _ Hloop) as Hprev.
  destruct (last (_data self)) as [row |] eqn:Hlast.
  2:{ apply last_None in Hlast. rewrite Hlast in Hloop.
      apply combined_loop_nil in Hloop. subst st. cbn in H.
      injection H as _ _ <-. contradiction. }
  unfold finish in H.
  destruct (last (ls_sections st)) as [a |] eqn:Ha.
  2:{ injection H as _ _ <-. apply last_None in Ha. contradiction. }
  cbv zeta in H. rewrite upd_eq in H. cbn [TF.set_include_end end_] in H.
  destruct (end_ (ls_store st a)) as [e |] eqn:He.
  - injection H as <- _ <-. exists a, row.
    rewrite upd_eq. cbn. repeat split; auto.
    intros st0 rows0 Heq Hnone. inversion Heq; subst. congruence.
  - destruct (TF.set_end _ _) as [tf |] eqn:Hset; [| discriminate].
    injection H as <- _ <-. exists a, row.
    rewrite upd_eq. apply set_end_ok in Hset as (_ & Hend & Hinc).
    cbn in Hinc. rewrite Hend, Hinc, Hprev. repeat split; auto.
Qed.

Lemma final_inclusivity_witness :
  exists a row,
    last [0%nat] = Some a /\
    last (_data scenario_acc) = Some row /\
    include_end (fst (fst (combined scenario_store scenario_acc)) a) = true /\
    (forall st rows,
       combined_loop (max_sample_period_td scenario_acc)
         (mkLoop scenario_store [] None) (_data scenario_acc) = (st, rows, None) ->
       end_ (ls_store st a) = None ->
       end_ (fst (fst (combined scenario_store scenario_acc)) a) = Some (row_end row)).
Proof.
  apply (final_inclusivity scenario_store _ scenario_acc
           (snd (fst (combined scenario_store scenario_acc))) [0%nat]);
    [ reflexivity | discriminate ].
Defined.

(** C6, as stated, fails: on the concrete scenario [combined] leaves the
    second record with an empty list of sections, where it held one. *)
Lemma combined_changes_record :
  let '(_, self', _) := combined scenario_store scenario_acc in
  map sections (_data scenario_acc) = [[0%nat]; [1%nat]] /\
  map sections (_data self') = [[0%nat]; []].
Proof. vm_compute. split; reflexivity. Qed.

(** C6, amended (record frame condition).  Whatever [combined] returns or
    raises, it leaves the tolerance, the number and order of the records,
    and the key and end of every record unchanged; the list of sections of
    a record is either unchanged or has lost its first element. *)
Theorem combined_frame (h : store) (self : GoodSectionsResults) :
  let '(_, self', _) := combined h self in
  max_sample_period_td self' = max_sample_period_td self /\
  Forall2 row_kept (_data self) (_data self').
Proof.
  unfold combined.
  destruct (combined_loop _ _ _) as [[st rows] r] eqn:Hloop.
  apply combined_loop_kept in Hloop.
  destruct r as [e |]; [| destruct (finish st)]; cbn; auto.
Qed.

(** C7 ([unify]).  The module never binds the name [warn], so a call of
    [unify] raises [NameError] before any warning is issued and before the
    base class is reached. *)
Theorem unify_raises_NameError (warnings : list string)
    (self other : GoodSectionsResults) :
  unify warnings self other = (warnings, Raise NameError).
Proof. reflexivity. Qed.

(** C8 (guard of the boundary stitch).  A record with no section, whose
    key is adjacent to the end of the previous record, makes [combined]
    raise [IndexError]: the stitch test reads [row_sections[0]] without
    testing the list first.  Here the chunks are [0,10) with the section
    (2, 5) and [10,20) with none. *)
Theorem empty_adjacent_chunk_raises :
  observe (combined (upd scenario_store 0%nat (mkTimeFrame (Some 2) (Some 5) false))
             (append 10 20 [] (append 0 10 [0%nat] (init 1))))
  = Raise IndexError.
Proof. vm_compute. reflexivity. Qed.

(** ** The cache codec *)

Lemma init_ok (s e : Z) (tf : TimeFrame) :
  TF.init (Some s) (Some e) = Ok tf -> tf = mkTimeFrame (Some s) (Some e) false.
Proof.
  unfold TF.init, TF.set_start, TF.set_end. cbn.
  destruct (e <? s); [discriminate | congruence].
Qed.

Lemma new_timeframes_length (group : list CacheRow) :
  forall h next h' next' l,
    new_timeframes h next group = (h', next', Ok l) -> length l = length group.
Proof.
  induction group as [| r rest IH]; intros h next h' next' l H; cbn in H.
  - injection H as _ _ <-. reflexivity.
  - destruct (TF.init _ _) as [tf |]; [| discriminate].
    destruct (new_timeframes _ _ rest) as [[h2 next2] o] eqn:Hrest.
    destruct o as [l2 |]; [| discriminate].
    injection H as _ _ <-. cbn. f_equal. eapply IH; eassumption.
Qed.

Lemma import_group_rows (known : list TimeFrame) (st st' : import_state)
    (g : Z * list CacheRow) (e : option exn) :
  import_group known st g = (st', e) ->
  exists new,
    _data (is_self st') = _data (is_self st) ++ new /\ Forall (imported known) new.
Proof.
  destruct g as [name group]. unfold import_group. intros H.
  assert (Hnil : exists new, _data (is_self st) = _data (is_self st) ++ new /\
                             Forall (imported known) new).
  { exists []. rewrite app_nil_r. split; [reflexivity | constructor]. }
  destruct (negb _); [injection H as <- _; exact Hnil |].
  destruct group as [| first rest]; [injection H as <- _; exact Hnil |].
  destruct (TF.init _ _) as [timeframe |] eqn:Hinit; [| injection H as <- _; exact Hnil].
  apply init_ok in Hinit. subst timeframe.
  destruct (TF.mem _ known) eqn:Hmem; [| injection H as <- _; exact Hnil].
  destruct (new_timeframes _ _ _) as [[h1 next1] o] eqn:Hnew.
  destruct o as [timeframes |]; injection H as <- _; [| exact Hnil].
  eexists. split; [reflexivity |]. repeat constructor; [exact Hmem |].
  apply new_timeframes_length in Hnew. cbn in *. intros ->. discriminate.
Qed.

Lemma import_groups_rows (known : list TimeFrame) (gs : list (Z * list CacheRow)) :
  forall st st' e,
    import_groups known st gs = (st', e) ->
    exists new,
      _data (is_self st') = _data (is_self st) ++ new /\ Forall (imported known) new.
Proof.
  induction gs as [| g rest IH]; intros st st' e H; cbn in H.
  - injection H as <- _. exists []. rewrite app_nil_r. split; [reflexivity | constructor].
  - destruct (import_group known st g) as [st1 e1] eqn:Hg.
    apply import_group_rows in Hg as (new1 & Hd1 & Hf1).
    destruct e1 as [e1 |].
    + injection H as <- _. eauto.
    + apply IH in H as (new2 & Hd2 & Hf2).
      exists (new1 ++ new2). rewrite Hd2, Hd1, app_assoc. split; [reflexivity |].
      apply Forall_app. auto.
Qed.

Lemma stale_group_skipped (known : list TimeFrame) (st : import_state)
    (g : Z * list CacheRow) :
  stale known g = true -> import_group known st g = (st, None).
Proof.
  destruct g as [name group]. unfold stale, import_group. intros H.
  apply andb_true_iff in H as [H1 H2]. rewrite H1. cbn [negb].
  destruct group as [| first rest]; [discriminate |].
  destruct (TF.init _ _); [| discriminate].
  apply negb_true_iff in H2. rewrite H2. reflexivity.
Qed.

Lemma import_groups_skip_stale (known : list TimeFrame) (gs : list (Z * list CacheRow)) :
  forall st,
    import_groups known st gs
    = import_groups known st (List.filter (fun g => negb (stale known g)) gs).
Proof.
  induction gs as [| g rest IH]; intros st; [reflexivity |].
  cbn [List.filter]. destruct (stale known g) eqn:Hs; cbn [negb import_groups].
  - rewrite (stale_group_skipped _ _ _ Hs). apply IH.
  - destruct (import_group known st g) as [st1 [e1 |]]; [reflexivity | apply IH].
Qed.

Lemma export_to_cache_app (h : store) (msp : Z) (rows1 rows2 : list Row) :
  export_to_cache h (mkGSR msp (rows1 ++ rows2))
  = export_to_cache h (mkGSR msp rows1) ++ export_to_cache h (mkGSR msp rows2).
Proof. unfold export_to_cache. cbn. now rewrite map_app, concat_app. Qed.

(** C9 (stale-chunk skip).  Whatever the cached table and the known chunk
    boundaries, and whether or not the import ends with an exception, every
    record [import_from_cache] appends has a boundary that is among the
    known ones; and the import does exactly what it does on the table
    without its stale groups: they change nothing and raise nothing. *)
Theorem stale_chunk_skip (known : list TimeFrame) (st : import_state)
    (cached_stat : list CacheRow) :
  (exists new,
     _data (is_self (fst (import_from_cache st cached_stat known)))
       = _data (is_self st) ++ new /\
     Forall (fun r => TF.mem (boundary r) known = true) new) /\
  import_from_cache st cached_stat known
  = import_groups known st
      (List.filter (fun g => negb (stale known g)) (groupby cached_stat)).
Proof.
  split; [| apply import_groups_skip_stale].
  unfold import_from_cache.
  destruct (import_groups known st (groupby cached_stat)) as [st' e] eqn:H.
  apply import_groups_rows in H as (new & Hd & Hf).
  exists new. split; [exact Hd |].
  eapply Forall_impl; [exact Hf |]. intros r [Hm _]. exact Hm.
Qed.

(** C10 (empty chunks are lost through the cache).  A record with no
    section contributes no row to the exported table: the table is the one
    of the accumulator without that record, and each of its rows comes
    from a record that has sections.  And no import, of any table, ever
    appends a record with no section. *)
Theorem empty_chunk_lost (h : store) (msp : Z) (rows1 rows2 : list Row) (r : Row) :
  sections r = [] ->
  export_to_cache h (mkGSR msp (rows1 ++ r :: rows2))
    = export_to_cache h (mkGSR msp (rows1 ++ rows2)) /\
  (forall c, In c (export_to_cache h (mkGSR msp (rows1 ++ r :: rows2))) ->
     exists r', In r' (rows1 ++ rows2) /\ sections r' <> [] /\
                cache_index c = index r' /\ cache_end c = row_end r') /\
  (forall known st cached_stat,
     exists new,
       _data (is_self (fst (import_from_cache st cached_stat known)))
         = _data (is_self st) ++ new /\
       Forall (fun r' => sections r' <> []) new).
Proof.
  intros Hr.
  assert (Heq : export_to_cache h (mkGSR msp (rows1 ++ r :: rows2))
                = export_to_cache h (mkGSR msp (rows1 ++ rows2))).
  { rewrite !export_to_cache_app. f_equal.
    unfold export_to_cache. cbn. unfold export_row at 1. rewrite Hr. reflexivity. }
  split; [exact Heq |]. split.
  - rewrite Heq. unfold export_to_cache. cbn [_data]. intros c Hc.
    apply in_concat in Hc as (l & Hl & Hc).
    apply in_map_iff in Hl as (r' & <- & Hr').
    unfold export_row in Hc. apply in_map_iff in Hc as (a & <- & Ha).
    exists r'. cbn. repeat split; [exact Hr' |].
    intros Hnil. rewrite Hnil in Ha. contradiction.
  - intros known st cached_stat. unfold import_from_cache.
    destruct (import_groups known st (groupby cached_stat)) as [st' e] eqn:H.
    apply import_groups_rows in H as (new & Hd & Hf).
    exists new. split; [exact Hd |].
    eapply Forall_impl; [exact Hf |]. intros r' [_ Hm]. exact Hm.
Qed.

Lemma empty_chunk_lost_witness :
  export_to_cache scenario_store
      (mkGSR 1 ([mkRow 0 10 [0%nat]] ++ mkRow 10 20 [] :: [mkRow 20 30 [1%nat]]))
    = export_to_cache scenario_store
        (mkGSR 1 ([mkRow 0 10 [0%nat]] ++ [mkRow 20 30 [1%nat]])).
Proof.
  apply (empty_chunk_lost scenario_store 1 [mkRow 0 10 [0%nat]] [mkRow 20 30 [1%nat]]
           (mkRow 10 20 [])).
  reflexivity.
Defined.

(** ** Two stores that hold the same values *)

Lemma map_upd_notin (h : store) (a : addr) (v : TimeFrame) (l : list addr) :
  a ∉ l -> map (upd h a v) l = map h l.
Proof.
  induction l as [| x l IH]; cbn; intros Hn; [reflexivity |].
  apply not_elem_of_cons in Hn as [Hx Hl].
  rewrite upd_ne by congruence. now rewrite IH.
Qed.

Lemma map_upd_snoc (h : store) (a : addr) (v : TimeFrame) (l : list addr) :
  a ∉ l -> map (upd h a v) (l ++ [a]) = map h l ++ [v].
Proof.
  intros Hn. rewrite map_app, map_upd_notin by assumption. cbn. now rewrite upd_eq.
Qed.

Lemma map_upd_cons (h : store) (b : addr) (v : TimeFrame) (l : list addr) :
  b ∉ l -> map (upd h b v) (b :: l) = v :: map h l.
Proof. intros Hn. cbn. now rewrite upd_eq, map_upd_notin. Qed.

Lemma map_agree (h h' : store) (l : list addr) :
  (forall x, x ∈ l -> h' x = h x) -> map h' l = map h l.
Proof.
  induction l as [| x l IH]; cbn; intros H; [reflexivity |].
  rewrite H by apply list_elem_of_here. f_equal. apply IH.
  intros y Hy. apply H. now apply list_elem_of_further.
Qed.

(** The last objects of two lists with the same values. *)
Lemma same_values_last (h1 h2 : store) (l1 l2 : list addr) :
  map h1 l1 = map h2 l2 ->
  (last l1 = None /\ last l2 = None) \/
  (exists a1 a2 k1 k2,
     l1 = k1 ++ [a1] /\ l2 = k2 ++ [a2] /\ last l1 = Some a1 /\ last l2 = Some a2 /\
     map h1 k1 = map h2 k2 /\ h1 a1 = h2 a2).
Proof.
  intros H.
  destruct (last l1) as [a1 |] eqn:L1.
  - right. apply last_Some in L1 as [k1 ->].
    destruct (last l2) as [a2 |] eqn:L2.
    + apply last_Some in L2 as [k2 ->].
      rewrite !map_app in H. cbn in H. apply app_inj_tail in H as [Hk Ha].
      exists a1, a2, k1, k2. repeat split; assumption || reflexivity.
    + apply last_None in L2. subst l2. rewrite map_app in H. cbn in H.
      now destruct (map h1 k1).
  - left. apply last_None in L1. subst l1. cbn in H.
    destruct l2; [auto | discriminate].
Qed.

Lemma NoDup_snoc_notin (k : list addr) (a : addr) (rs : list addr) :
  NoDup ((k ++ [a]) ++ rs) -> (a ∉ k) /\ (a ∉ rs).
Proof.
  intros H. apply NoDup_app in H as (Hk & Hd & _). split.
  - apply NoDup_app in Hk as (_ & Hk & _). intros Ha. apply (Hk a Ha). apply list_elem_of_here.
  - apply Hd. apply elem_of_app. right. apply list_elem_of_here.
Qed.

Section Simulation.

Variables (msp : Z) (prev : option Z) (idx : Z).
Variables (h1 h2 : store) (secs1 secs2 rs1 rs2 : list addr).
Hypothesis (N1 : NoDup (secs1 ++ rs1)) (N2 : NoDup (secs2 ++ rs2)).
Hypothesis (Vs : map h1 secs1 = map h2 secs2).
Hypothesis (Vr : map h1 rs1 = map h2 rs2).

Lemma stitch_sim :
  both (fun x1 x2 =>
          map (fst x1) secs1 = map (fst x2) secs2 /\
          map (fst x1) (snd x1) = map (fst x2) (snd x2) /\
          ((snd x1 = rs1 /\ snd x2 = rs2) \/
           (snd x1 = tail rs1 /\ snd x2 = tail rs2)))
       (stitch msp h1 secs1 prev idx rs1) (stitch msp h2 secs2 prev idx rs2).
Proof.
  unfold stitch. destruct (adjacent msp prev idx); [| cbn; auto].
  destruct rs1 as [| b1 rest1], rs2 as [| b2 rest2]; try discriminate; [reflexivity |].
  cbn in Vr. injection Vr as Hb Vrest. rewrite Hb.
  destruct (start (h2 b2)); [cbn; rewrite Hb, Vrest; auto |].
  unfold last_item.
  destruct (same_values_last _ _ _ _ Vs)
    as [[L1 L2] | (a1 & a2 & k1 & k2 & E1 & E2 & L1 & L2 & Vk & Ha)];
    rewrite L1, L2; [reflexivity |].
  rewrite Ha. destruct (end_ (h2 a2)); [reflexivity |].
  destruct (TF.set_end (end_ (h2 b2)) (h2 a2)) as [tf |]; [| reflexivity].
  cbn. subst secs1 secs2.
  apply NoDup_snoc_notin in N1 as [Hk1 Hr1], N2 as [Hk2 Hr2].
  apply not_elem_of_cons in Hr1 as [_ Hr1], Hr2 as [_ Hr2].
  rewrite !map_upd_snoc, !map_upd_notin by assumption.
  rewrite Vk, Vrest. auto.
Qed.

Lemma close_last_sim :
  both (fun x1 x2 => map x1 secs1 = map x2 secs2 /\ map x1 rs1 = map x2 rs2)
       (close_last h1 secs1 prev) (close_last h2 secs2 prev).
Proof.
  unfold close_last.
  destruct (same_values_last _ _ _ _ Vs)
    as [[L1 L2] | (a1 & a2 & k1 & k2 & E1 & E2 & L1 & L2 & Vk & Ha)];
    rewrite L1, L2; [cbn; auto |].
  rewrite Ha. destruct (end_ (h2 a2)); [cbn; auto |].
  unfold try_assign. destruct (TF.set_end prev (h2 a2)) as [tf | e].
  - cbn. subst secs1 secs2.
    apply NoDup_snoc_notin in N1 as [Hk1 Hr1], N2 as [Hk2 Hr2].
    rewrite !map_upd_snoc, !map_upd_notin by assumption.
    rewrite Vk, Vr. auto.
  - destruct e; cbn; auto.
Qed.

Lemma open_first_sim :
  both (fun x1 x2 => map x1 secs1 = map x2 secs2 /\ map x1 rs1 = map x2 rs2)
       (open_first h1 rs1 idx) (open_first h2 rs2 idx).
Proof.
  unfold open_first.
  destruct rs1 as [| b1 rest1], rs2 as [| b2 rest2]; try discriminate; [cbn; auto |].
  pose proof Vr as Vr'. cbn in Vr'. injection Vr' as Hb Vrest. rewrite Hb.
  destruct (start (h2 b2)); [cbn; auto |].
  unfold try_assign. destruct (TF.set_start (Some idx) (h2 b2)) as [tf | e].
  - cbn. apply NoDup_app in N1 as (_ & Hd1 & Hn1), N2 as (_ & Hd2 & Hn2).
    apply NoDup_cons in Hn1 as [Hb1 _], Hn2 as [Hb2 _].
    rewrite !upd_eq, !map_upd_notin; try assumption.
    + rewrite Vs, Vrest. auto.
    + intros Hin. apply (Hd2 _ Hin). apply list_elem_of_here.
    + intros Hin. apply (Hd1 _ Hin). apply list_elem_of_here.
  - destruct e; cbn; auto.
Qed.

End Simulation.

(** The objects a step of the loop assigns to are among the sections
    returned so far and the sections of the row. *)
Lemma try_assign_footprint (h h' : store) (a : addr) (r : outcome TimeFrame) :
  try_assign h a r = Ok h' -> forall x, x <> a -> h' x = h x.
Proof.
  unfold try_assign. intros H x Hx.
  destruct r as [tf | []]; inversion H; subst; [now apply upd_ne | reflexivity].
Qed.

Lemma stitch_footprint (msp : Z) (h h' : store) (secs : list addr) (prev : option Z)
    (idx : Z) (rs rs' : list addr) :
  stitch msp h secs prev idx rs = Ok (h', rs') ->
  forall x, x ∉ secs -> h' x = h x.
Proof.
  unfold stitch, last_item. intros H x Hx.
  destruct (adjacent msp prev idx); [| congruence].
  destruct rs as [| b rest]; [discriminate |].
  destruct (start (h b)); [congruence |].
  destruct (last secs) as [a |] eqn:La; [| discriminate].
  destruct (end_ (h a)); [discriminate |].
  destruct (TF.set_end _ _); [| discriminate].
  injection H as <- _. apply upd_ne. intros ->.
  apply Hx. eapply last_Some_elem_of; eassumption.
Qed.

Lemma close_last_footprint (h h' : store) (secs : list addr) (prev : option Z) :
  close_last h secs prev = Ok h' -> forall x, x ∉ secs -> h' x = h x.
Proof.
  unfold close_last. intros H x Hx.
  destruct (last secs) as [a |] eqn:La; [| congruence].
  destruct (end_ (h a)); [congruence |].
  eapply try_assign_footprint; [eassumption |]. intros ->.
  apply Hx. eapply last_Some_elem_of; eassumption.
Qed.

Lemma open_first_footprint (h h' : store) (rs : list addr) (idx : Z) :
  open_first h rs idx = Ok h' -> forall x, x ∉ rs -> h' x = h x.
Proof.
  unfold open_first. intros H x Hx.
  destruct rs as [| b rest]; [congruence |].
  destruct (start (h b)); [congruence |].
  eapply try_assign_footprint; [eassumption |]. intros ->.
  apply Hx. apply list_elem_of_here.
Qed.

Lemma tail_sublist (l : list addr) : tail l `sublist_of` l.
Proof. destruct l; [constructor | apply sublist_cons; reflexivity]. Qed.

Lemma row_kept_sublist (r r' : Row) :
  row_kept r r' -> sections r' `sublist_of` sections r.
Proof.
  intros (_ & _ & [-> | ->]); [reflexivity | apply tail_sublist].
Qed.

Lemma combined_row_footprint (msp : Z) (st st' : loop_state) (row row' : Row) :
  combined_row msp st row = Ok (st', row') ->
  forall x, x ∉ ls_sections st ++ sections row -> ls_store st' x = ls_store st x.
Proof.
  intros H x Hx. pose proof (combined_row_kept _ _ _ _ _ H) as Hk.
  apply row_kept_sublist in Hk.
  apply combined_row_inv in H as (h1 & h2 & Hs & Hc & Ho & _).
  apply not_elem_of_app in Hx as [Hx1 Hx2].
  rewrite (open_first_footprint _ _ _ _ Ho), (close_last_footprint _ _ _ _ Hc),
    (stitch_footprint _ _ _ _ _ _ _ _ Hs); auto.
  intros Hin. apply Hx2. eapply elem_of_sublist; eassumption.
Qed.

Lemma combined_row_sim (msp : Z) (prev : option Z) (h1 h2 : store)
    (secs1 secs2 : list addr) (r1 r2 : Row) :
  NoDup (secs1 ++ sections r1) ->
  NoDup (secs2 ++ sections r2) ->
  map h1 secs1 = map h2 secs2 ->
  same_row h1 h2 r1 r2 ->
  both (fun x1 x2 => same_state (fst x1) (fst x2))
       (combined_row msp (mkLoop h1 secs1 prev) r1)
       (combined_row msp (mkLoop h2 secs2 prev) r2).
Proof.
  intros N1 N2 Vs (Hi & He & Vr). unfold combined_row.
  cbn [ls_store ls_sections ls_prev]. rewrite Hi, He.
  pose proof (stitch_sim msp prev (index r2) _ _ _ _ _ _ N1 N2 Vs Vr) as Hst.
  destruct (stitch msp h1 _ _ _ _) as [[h1' rs1'] | e1],
           (stitch msp h2 _ _ _ _) as [[h2' rs2'] | e2]; cbn in Hst;
    try contradiction; [| exact Hst].
  destruct Hst as (Vs' & Vr' & Hsub).
  assert (N1' : NoDup (secs1 ++ rs1')).
  { eapply sublist_NoDup; [exact N1 |]. apply sublist_app; [reflexivity |].
    destruct Hsub as [[-> _] | [-> _]]; [reflexivity | apply tail_sublist]. }
  assert (N2' : NoDup (secs2 ++ rs2')).
  { eapply sublist_NoDup; [exact N2 |]. apply sublist_app; [reflexivity |].
    destruct Hsub as [[_ ->] | [_ ->]]; [reflexivity | apply tail_sublist]. }
  pose proof (close_last_sim prev _ _ _ _ _ _ N1' N2' Vs' Vr') as Hcl.
  destruct (close_last h1' _ _) as [h1'' | e1], (close_last h2' _ _) as [h2'' | e2];
    cbn in Hcl; try contradiction; [| exact Hcl].
  destruct Hcl as [Vs'' Vr''].
  pose proof (open_first_sim (index r2) _ _ _ _ _ _ N1' N2' Vs'' Vr'') as Hop.
  destruct (open_first h1'' _ _) as [h1''' | e1], (open_first h2'' _ _) as [h2''' | e2];
    cbn in Hop; try contradiction; [| exact Hop].
  destruct Hop as [Vs3 Vr3]. cbn. unfold same_state. cbn.
  rewrite !map_app, Vs3, Vr3. auto.
Qed.

Lemma same_rows_agree (h1 h1' h2 h2' : store) (rows1 rows2 : list Row) :
  Forall2 (same_row h1 h2) rows1 rows2 ->
  (forall x, x ∈ concat (map sections rows1) -> h1' x = h1 x) ->
  (forall x, x ∈ concat (map sections rows2) -> h2' x = h2 x) ->
  Forall2 (same_row h1' h2') rows1 rows2.
Proof.
  induction 1 as [| r1 r2 rest1 rest2 (Hi & He & Hv) _ IH]; intros A1 A2;
    constructor.
  - unfold same_row. repeat split; [exact Hi | exact He |].
    rewrite (map_agree h1 h1'), (map_agree h2 h2'); [exact Hv | |];
      intros x Hx; [apply A2 | apply A1]; cbn; apply elem_of_app; auto.
  - apply IH; intros x Hx; [apply A1 | apply A2]; cbn; apply elem_of_app; auto.
Qed.

Lemma NoDup_app_disjoint (l k : list addr) (x : addr) :
  NoDup (l ++ k) -> x ∈ k -> x ∉ l.
Proof. intros H Hk Hl. apply NoDup_app in H as (_ & H & _). exact (H x Hl Hk). Qed.

Lemma combined_loop_sim (msp : Z) (rows1 : list Row) :
  forall rows2 h1 h2 secs1 secs2 prev st1 rows1' e1 st2 rows2' e2,
    NoDup (secs1 ++ concat (map sections rows1)) ->
    NoDup (secs2 ++ concat (map sections rows2)) ->
    map h1 secs1 = map h2 secs2 ->
    Forall2 (same_row h1 h2) rows1 rows2 ->
    combined_loop msp (mkLoop h1 secs1 prev) rows1 = (st1, rows1', e1) ->
    combined_loop msp (mkLoop h2 secs2 prev) rows2 = (st2, rows2', e2) ->
    e1 = e2 /\
    (e1 = None ->
     same_state st1 st2 /\ NoDup (ls_sections st1) /\ NoDup (ls_sections st2)).
Proof.
  induction rows1 as [| r1 rest1 IH];
    intros rows2 h1 h2 secs1 secs2 prev st1 rows1' e1 st2 rows2' e2 N1 N2 Vs HF L1 L2;
    inversion HF as [| ? r2 ? rest2 Hr Hrest]; subst; cbn in L1, L2.
  - injection L1 as <- _ <-. injection L2 as <- _ <-.
    cbn in N1, N2. rewrite app_nil_r in N1, N2.
    split; [reflexivity |]. intros _. unfold same_state. cbn. auto.
  - cbn in N1, N2. rewrite app_assoc in N1, N2.
    assert (N1r : NoDup (secs1 ++ sections r1))
      by (eapply sublist_NoDup; [exact N1 | apply sublist_inserts_r; reflexivity]).
    assert (N2r : NoDup (secs2 ++ sections r2))
      by (eapply sublist_NoDup; [exact N2 | apply sublist_inserts_r; reflexivity]).
    pose proof (combined_row_sim msp prev _ _ _ _ _ _ N1r N2r Vs Hr) as Hsim.
    destruct (combined_row msp (mkLoop h1 secs1 prev) r1) as [[s1 r1'] | x1] eqn:R1,
             (combined_row msp (mkLoop h2 secs2 prev) r2) as [[s2 r2'] | x2] eqn:R2;
      cbn in Hsim; try contradiction.
    2:{ injection L1 as _ _ <-. injection L2 as _ _ <-. subst x2.
        split; [reflexivity | discriminate]. }
    destruct (combined_loop msp s1 rest1) as [[t1 q1] o1] eqn:T1.
    destruct (combined_loop msp s2 rest2) as [[t2 q2] o2] eqn:T2.
    injection L1 as <- _ <-. injection L2 as <- _ <-.
    pose proof (combined_row_footprint _ _ _ _ _ R1) as F1.
    pose proof (combined_row_footprint _ _ _ _ _ R2) as F2.
    pose proof (row_kept_sublist _ _ (combined_row_kept _ _ _ _ _ R1)) as K1.
    pose proof (row_kept_sublist _ _ (combined_row_kept _ _ _ _ _ R2)) as K2.
    apply combined_row_inv in R1 as (_ & _ & _ & _ & _ & S1 & _).
    apply combined_row_inv in R2 as (_ & _ & _ & _ & _ & S2 & _).
    destruct Hsim as [Hv Hp]. cbn [fst] in Hv, Hp.
    destruct s1 as [g1 c1 p1], s2 as [g2 c2 p2]. cbn in *. subst c1 c2 p2.
    eapply (IH rest2 g1 g2); [| | exact Hv | | exact T1 | exact T2].
    + eapply sublist_NoDup; [exact N1 |].
      apply sublist_app; [apply sublist_app |]; (reflexivity || assumption).
    + eapply sublist_NoDup; [exact N2 |].
      apply sublist_app; [apply sublist_app |]; (reflexivity || assumption).
    + eapply same_rows_agree; [exact Hrest | |]; intros x Hx; [apply F1 | apply F2];
        eapply NoDup_app_disjoint; eassumption.
Qed.

Lemma finish_sim (st1 st2 : loop_state) (g1 g2 : GoodSectionsResults) :
  same_state st1 st2 ->
  NoDup (ls_sections st1) ->
  NoDup (ls_sections st2) ->
  observe (let '(h, r) := finish st1 in (h, g1, r))
  = observe (let '(h, r) := finish st2 in (h, g2, r)).
Proof.
  destruct st1 as [h1 secs1 p1], st2 as [h2 secs2 p2].
  unfold same_state, finish. cbn [ls_store ls_sections ls_prev].
  intros [Vs <-] N1 N2.
  destruct (same_values_last _ _ _ _ Vs)
    as [[L1 L2] | (a1 & a2 & k1 & k2 & E1 & E2 & L1 & L2 & Vk & Ha)];
    rewrite L1, L2; [cbn; now rewrite Vs |].
  cbv zeta. rewrite !upd_eq. cbn [TF.set_include_end end_]. rewrite Ha.
  subst secs1 secs2.
  apply NoDup_app in N1 as (_ & D1 & _), N2 as (_ & D2 & _).
  assert (Hk1 : a1 ∉ k1) by (intros Hin; apply (D1 _ Hin), list_elem_of_here).
  assert (Hk2 : a2 ∉ k2) by (intros Hin; apply (D2 _ Hin), list_elem_of_here).
  destruct (end_ (h2 a2)).
  - cbn. rewrite !map_upd_snoc by assumption. now rewrite Vk.
  - destruct (TF.set_end p1 _) as [tf |]; [| reflexivity].
    cbn. rewrite !map_upd_snoc, !map_upd_notin by assumption. now rewrite Vk.
Qed.

(** On two accumulators with the same tolerance, keys and ends, whose
    sections are distinct objects with the same values, [combined] returns
    the same intervals or raises the same exception. *)
Lemma combined_sim (msp : Z) (h1 h2 : store) (rows1 rows2 : list Row) :
  NoDup (concat (map sections rows1)) ->
  NoDup (concat (map sections rows2)) ->
  Forall2 (same_row h1 h2) rows1 rows2 ->
  observe (combined h1 (mkGSR msp rows1)) = observe (combined h2 (mkGSR msp rows2)).
Proof.
  intros N1 N2 HF. unfold combined. cbn [max_sample_period_td _data].
  destruct (combined_loop msp (mkLoop h1 [] None) rows1) as [[st1 q1] e1] eqn:L1.
  destruct (combined_loop msp (mkLoop h2 [] None) rows2) as [[st2 q2] e2] eqn:L2.
  destruct (combined_loop_sim msp rows1 rows2 h1 h2 [] [] None _ _ _ _ _ _
              N1 N2 eq_refl HF L1 L2) as [<- Hst].
  destruct e1 as [e |]; [reflexivity |].
  destruct (Hst eq_refl) as (Hs & M1 & M2).
  apply finish_sim; assumption.
Qed.

(** ** Export followed by import *)

Lemma convert_roundtrip (o : option Z) : convert_nat_to_none (convert_none_to_nat o) = o.
Proof. now destruct o. Qed.

Lemma init_ordered (tf : TimeFrame) :
  TF.ordered tf ->
  TF.init (start tf) (end_ tf) = Ok (mkTimeFrame (start tf) (end_ tf) false).
Proof.
  unfold TF.ordered, TF.init, TF.set_start, TF.set_end.
  destruct (start tf) as [s |], (end_ tf) as [e |]; cbn; try reflexivity.
  intros H. destruct (Z.ltb_spec e s); [lia | reflexivity].
Qed.

Lemma export_row_cons (h : store) (i e : Z) (a : addr) (secs : list addr) :
  export_row h (mkRow i e (a :: secs))
  = mkCacheRow i e (convert_none_to_nat (start (h a))) (convert_none_to_nat (end_ (h a)))
      :: export_row h (mkRow i e secs).
Proof. reflexivity. Qed.

Lemma new_timeframes_export (h : store) (i e : Z) (secs : list addr) :
  Forall (fun a => cacheable (h a)) secs ->
  forall h0 next,
  exists h0',
    new_timeframes h0 next (export_row h (mkRow i e secs))
      = (h0', (next + length secs)%nat, Ok (seq next (length secs))) /\
    (forall x, (x < next)%nat -> h0' x = h0 x) /\
    map h0' (seq next (length secs)) = map h secs.
Proof.
  induction 1 as [| a secs [Ha Hinc] _ IH]; intros h0 next.
  - exists h0. cbn. rewrite Nat.add_0_r. auto.
  - rewrite export_row_cons. cbn [new_timeframes section_start section_end].
    rewrite !convert_roundtrip, (init_ordered _ Ha). cbn [alloc].
    destruct (IH (upd h0 next (mkTimeFrame (start (h a)) (end_ (h a)) false)) (S next))
      as (h0' & Hnew & Hagree & Hmap).
    exists h0'. rewrite Hnew. cbn [length seq map].
    rewrite Nat.add_succ_r. repeat split.
    + intros x Hx. rewrite Hagree by lia. apply upd_ne. lia.
    + rewrite Hmap, Hagree by lia. rewrite upd_eq. f_equal.
      destruct (h a) as [s0 e0 b0]. cbn in *. now subst b0.
Qed.

Lemma unique_same (e : Z) (l : list Z) :
  Forall (fun x => x = e) l -> l <> [] -> unique l = [e].
Proof.
  induction 1 as [| x l -> Hl IH]; intros Hne; [contradiction |].
  cbn. destruct l as [| y l']; [reflexivity |].
  rewrite IH by discriminate. cbn. now rewrite Z.eqb_refl.
Qed.

Lemma export_row_ends (h : store) (r : Row) :
  Forall (fun x => x = row_end r) (map cache_end (export_row h r)).
Proof.
  unfold export_row. rewrite map_map. cbn. apply Forall_forall.
  intros x Hx. apply list_elem_of_In, in_map_iff in Hx as (a & <- & _). reflexivity.
Qed.

Lemma export_row_keys (h : store) (r : Row) (c : CacheRow) :
  In c (export_row h r) -> cache_index c = index r.
Proof. unfold export_row. intros Hc. apply in_map_iff in Hc as (a & <- & _). reflexivity. Qed.

Lemma export_row_nil (h : store) (r : Row) : export_row h r = [] -> sections r = [].
Proof. unfold export_row. apply map_eq_nil. Qed.

(** The record the import builds from the rows exported for one record. *)
Lemma import_group_export (h : store) (known : list TimeFrame) (r : Row)
    (h0 : store) (next : addr) (self0 : GoodSectionsResults) :
  index r <= row_end r ->
  sections r <> [] ->
  TF.mem (boundary r) known = true ->
  Forall (fun a => cacheable (h a)) (sections r) ->
  exists h0',
    import_group known (mkImport h0 next self0) (index r, export_row h r)
    = (mkImport h0' (next + length (sections r))%nat
         (append (index r) (row_end r) (seq next (length (sections r))) self0), None) /\
    (forall x, (x < next)%nat -> h0' x = h0 x) /\
    map h0' (seq next (length (sections r))) = map h (sections r).
Proof.
  intros Hle Hne Hmem Hc. unfold import_group.
  rewrite (unique_same (row_end r)); [| apply export_row_ends |].
  2:{ intros Hnil. apply map_eq_nil, export_row_nil in Hnil. contradiction. }
  cbn [length Nat.eqb negb].
  destruct (export_row h r) as [| first rest] eqn:Hrow;
    [apply export_row_nil in Hrow; contradiction |].
  assert (Hend : cache_end first = row_end r).
  { pose proof (export_row_ends h r) as Hall. rewrite Hrow in Hall.
    cbn in Hall. now apply Forall_cons in Hall as [-> _]. }
  rewrite Hend. unfold TF.init, TF.set_start, TF.set_end.
  cbn [start end_ include_end].
  destruct (Z.ltb_spec (row_end r) (index r)); [lia |].
  fold (boundary r). rewrite Hmem. cbn [is_store is_next is_self]. rewrite <- Hrow.
  destruct r as [i e secs]. cbn [sections index row_end] in *.
  destruct (new_timeframes_export h i e secs Hc h0 next) as (h0' & Hnew & Hagree & Hmap).
  exists h0'. rewrite Hnew. cbn. auto.
Qed.

Lemma insert_key_below (k : Z) (ks : list Z) :
  Forall (fun k' => k < k') ks -> insert_key k ks = k :: ks.
Proof.
  intros H. destruct H as [| k' ks Hk _]; [reflexivity |].
  cbn. now apply Z.ltb_lt in Hk as ->.
Qed.

Lemma insert_key_head (k : Z) (ks : list Z) : insert_key k (k :: ks) = k :: ks.
Proof. cbn. now rewrite Z.ltb_irrefl, Z.eqb_refl. Qed.

Lemma insert_key_repeat (k : Z) (ks l : list Z) :
  Forall (fun x => x = k) l -> l <> [] -> Forall (fun k' => k < k') ks ->
  fold_right insert_key ks l = k :: ks.
Proof.
  induction 1 as [| x l -> Hl IH]; intros Hne Hks; [contradiction |].
  cbn. destruct l as [| y l'].
  - cbn. now apply insert_key_below.
  - rewrite IH by (discriminate || assumption). apply insert_key_head.
Qed.

Section Groups.

Variables (h : store) (msp : Z).

Lemma export_to_cache_cons (r : Row) (rows : list Row) :
  export_to_cache h (mkGSR msp (r :: rows))
  = export_row h r ++ export_to_cache h (mkGSR msp rows).
Proof. reflexivity. Qed.

Lemma export_keys (rows : list Row) (c : CacheRow) :
  In c (export_to_cache h (mkGSR msp rows)) -> exists r, In r rows /\ cache_index c = index r.
Proof.
  unfold export_to_cache. cbn. intros Hc.
  apply in_concat in Hc as (l & Hl & Hc). apply in_map_iff in Hl as (r & <- & Hr).
  exists r. split; [exact Hr | now apply export_row_keys in Hc].
Qed.

Lemma group_keys_export (rows : list Row) :
  StronglySorted Z.lt (map index rows) ->
  Forall (fun r => sections r <> []) rows ->
  group_keys (export_to_cache h (mkGSR msp rows)) = map index rows.
Proof.
  induction rows as [| r rows IH]; intros Hs Hne; [reflexivity |].
  cbn [map] in Hs. apply StronglySorted_inv in Hs as [Hs Hlt].
  apply Forall_cons in Hne as [Hr Hne].
  unfold group_keys in *. rewrite export_to_cache_cons, map_app, fold_right_app.
  rewrite IH by assumption. cbn [map]. apply insert_key_repeat.
  - apply Forall_forall. intros x Hx.
    apply list_elem_of_In, in_map_iff in Hx as (c & <- & Hc).
    now apply export_row_keys in Hc.
  - intros Hnil. apply map_eq_nil, export_row_nil in Hnil. contradiction.
  - exact Hlt.
Qed.

Lemma filter_all (k : Z) (t : list CacheRow) :
  (forall c, In c t -> cache_index c = k) ->
  List.filter (fun c => cache_index c =? k) t = t.
Proof.
  induction t as [| c t IH]; intros H; [reflexivity |].
  cbn. rewrite (H c) by (left; reflexivity). rewrite Z.eqb_refl. f_equal.
  apply IH. intros c' Hc'. apply H. now right.
Qed.

Lemma filter_none (k : Z) (t : list CacheRow) :
  (forall c, In c t -> cache_index c <> k) ->
  List.filter (fun c => cache_index c =? k) t = [].
Proof.
  induction t as [| c t IH]; intros H; [reflexivity |].
  cbn. destruct (Z.eqb_spec (cache_index c) k) as [E | _].
  - exfalso. apply (H c); [left; reflexivity | exact E].
  - apply IH. intros c' Hc'. apply H. now right.
Qed.

Lemma filter_export (rows : list Row) :
  StronglySorted Z.lt (map index rows) ->
  forall r, In r rows ->
  List.filter (fun c => cache_index c =? index r) (export_to_cache h (mkGSR msp rows))
  = export_row h r.
Proof.
  induction rows as [| r0 rows IH]; intros Hs r Hr; [contradiction |].
  cbn [map] in Hs. apply StronglySorted_inv in Hs as [Hs Hlt].
  assert (Hbelow : forall r', In r' rows -> index r0 < index r').
  { intros r' Hr'. rewrite Forall_forall in Hlt. apply Hlt.
    apply list_elem_of_In, in_map. exact Hr'. }
  rewrite export_to_cache_cons, List.filter_app. destruct Hr as [<- | Hr].
  - rewrite filter_all by apply export_row_keys.
    rewrite filter_none; [apply app_nil_r |].
    intros c Hc. apply export_keys in Hc as (r' & Hr' & ->).
    apply Hbelow in Hr'. lia.
  - rewrite (IH Hs r Hr). rewrite filter_none; [reflexivity |].
    intros c Hc. apply export_row_keys in Hc as ->.
    apply Hbelow in Hr. lia.
Qed.

(** The groups of an exported table are the records that have sections,
    in the order of the accumulator, when its keys increase. *)
Lemma groupby_export (rows : list Row) :
  StronglySorted Z.lt (map index rows) ->
  Forall (fun r => sections r <> []) rows ->
  groupby (export_to_cache h (mkGSR msp rows))
  = map (fun r => (index r, export_row h r)) rows.
Proof.
  intros Hs Hne. unfold groupby. rewrite group_keys_export by assumption.
  rewrite map_map. apply map_ext_in. intros r Hr.
  now rewrite filter_export.
Qed.

End Groups.

Lemma mem_boundary (rows : list Row) (r : Row) :
  In r rows -> TF.mem (boundary r) (map boundary rows) = true.
Proof.
  intros Hr. unfold TF.mem. apply existsb_exists. exists (boundary r).
  split; [now apply in_map |].
  unfold TF.eqb. now rewrite !bool_decide_eq_true_2.
Qed.

Lemma import_groups_export (h : store) (known : list TimeFrame) (rows : list Row) :
  Forall (importable h known) rows ->
  forall h0 next self0,
  exists h0' next' rows',
    import_groups known (mkImport h0 next self0)
      (map (fun r => (index r, export_row h r)) rows)
    = (mkImport h0' next' (mkGSR (max_sample_period_td self0) (_data self0 ++ rows')),
       None) /\
    (next <= next')%nat /\
    (forall x, (x < next)%nat -> h0' x = h0 x) /\
    Forall2 (same_row h h0') rows rows' /\
    NoDup (concat (map sections rows')) /\
    Forall (fun a => (next <= a < next')%nat) (concat (map sections rows')).
Proof.
  induction 1 as [| r rows (Hle & Hne & Hmem & Hc) _ IH]; intros h0 next self0.
  - exists h0, next, []. cbn. rewrite app_nil_r. destruct self0.
    repeat split; auto; constructor.
  - destruct (import_group_export h known r h0 next self0 Hle Hne Hmem Hc)
      as (h1 & Hg & Hagree1 & Hmap1).
    cbn [map import_groups]. rewrite Hg.
    set (n := length (sections r)) in *.
    destruct (IH h1 (next + n)%nat
                (append (index r) (row_end r) (seq next n) self0))
      as (h0' & next' & rows' & Hgs & Hnext & Hagree & HF & Hnd & Hrange).
    exists h0', next', (mkRow (index r) (row_end r) (seq next n) :: rows').
    rewrite Hgs. cbn [append Results.append max_sample_period_td _data].
    rewrite <- app_assoc. cbn [app map concat sections].
    repeat split.
    + lia.
    + intros x Hx. rewrite Hagree by lia. now apply Hagree1.
    + constructor; [| exact HF]. unfold same_row. cbn. repeat split.
      rewrite <- Hmap1. symmetry. apply map_agree.
      intros x Hx. apply Hagree. apply elem_of_seq in Hx. lia.
    + apply NoDup_app. repeat split; [apply NoDup_seq | | exact Hnd].
      intros x Hx Hx'. apply elem_of_seq in Hx.
      rewrite Forall_forall in Hrange. apply Hrange in Hx'. lia.
    + apply Forall_app. split.
      * apply Forall_forall. intros x Hx. apply elem_of_seq in Hx. lia.
      * eapply Forall_impl; [exact Hrange |]. cbn. intros x Hx. lia.
Qed.

Lemma same_rows_self (h h' : store) (rows : list Row) :
  (forall x, x ∈ concat (map sections rows) -> h' x = h x) ->
  Forall2 (same_row h' h) rows rows.
Proof.
  induction rows as [| r rows IH]; intros H; constructor.
  - unfold same_row. repeat split. apply map_agree.
    intros x Hx. apply H. cbn. apply elem_of_app. auto.
  - apply IH. intros x Hx. apply H. cbn. apply elem_of_app. auto.
Qed.

Lemma same_rows_sym (h1 h2 : store) (rows1 rows2 : list Row) :
  Forall2 (same_row h1 h2) rows1 rows2 -> Forall2 (same_row h2 h1) rows2 rows1.
Proof.
  induction 1 as [| r1 r2 ? ? (Hi & He & Hv) _ IH]; constructor; [| exact IH].
  unfold same_row. auto.
Qed.

(** C1, as stated, fails.  Five accumulators built by [append] whose
    round trip through the cache does not reproduce the output of
    [combined]: (1) a section with an inclusive end that is not the last
    one comes back exclusive; (2) a chunk with no section, adjacent to the
    previous one, is absent from the cache, and [combined] raises on the
    original but returns on the copy; (3) records appended with decreasing
    keys come back in increasing order; (4) a record whose key is after
    its end makes the import raise [ValueError]; (5) an object that two
    records share comes back as two objects. *)
Lemma cache_roundtrip_fails :
  let one := fun b => upd (upd scenario_store 0%nat (mkTimeFrame (Some 1) (Some 2) b))
                          1%nat (mkTimeFrame (Some 3) (Some 4) false) in
  roundtrip (one true) 2%nat (append 0 10 [0%nat; 1%nat] (init 1))
    <> observe (combined (one true) (append 0 10 [0%nat; 1%nat] (init 1))) /\
  roundtrip (one false) 2%nat (append 10 20 [] (append 0 10 [0%nat] (init 1)))
    <> observe (combined (one false) (append 10 20 [] (append 0 10 [0%nat] (init 1)))) /\
  roundtrip (one false) 2%nat (append 0 2 [0%nat] (append 2 5 [1%nat] (init 1)))
    <> observe (combined (one false)
                  (append 0 2 [0%nat] (append 2 5 [1%nat] (init 1)))) /\
  roundtrip (one false) 2%nat (append 10 0 [0%nat] (init 1))
    <> observe (combined (one false) (append 10 0 [0%nat] (init 1))) /\
  roundtrip scenario_store 2%nat (append 20 30 [0%nat] (append 0 10 [0%nat] (init 1)))
    <> observe (combined scenario_store
                  (append 20 30 [0%nat] (append 0 10 [0%nat] (init 1)))).
Proof. cbv zeta. repeat split; vm_compute; discriminate. Qed.

(** C1, amended (cache round trip).  Take an accumulator whose keys
    increase strictly, whose records each have a key not after their end
    and at least one section, whose sections are distinct objects older
    than [next], each with its bounds in order and an exclusive end.  Then
    importing its exported cache, against its own chunk boundaries, into a
    new accumulator of the same tolerance raises nothing, and [combined]
    on the new accumulator returns the same intervals, or raises the same
    exception, as [combined] on the original, be it called before or after
    the import. *)
Theorem cache_roundtrip (h : store) (next : addr) (self : GoodSectionsResults) :
  StronglySorted Z.lt (map index (_data self)) ->
  Forall (fun r => index r <= row_end r /\ sections r <> []) (_data self) ->
  NoDup (concat (map sections (_data self))) ->
  Forall (fun a => (a < next)%nat /\ cacheable (h a))
         (concat (map sections (_data self))) ->
  exists st',
    import_from_cache (mkImport h next (init (max_sample_period_td self)))
      (export_to_cache h self) (chunk_boundaries_of self) = (st', None) /\
    observe (combined (is_store st') (is_self st')) = observe (combined h self) /\
    observe (combined (is_store st') self) = observe (combined h self).
Proof.
  destruct self as [msp rows]. cbn [_data max_sample_period_td].
  intros Hsorted Hrows Hnd Hobj.
  rewrite Forall_forall in Hobj.
  assert (Himp : Forall (importable h (map boundary rows)) rows).
  { apply Forall_forall. intros r Hr. rewrite Forall_forall in Hrows.
    destruct (Hrows r Hr) as [Hle Hne]. apply list_elem_of_In in Hr.
    repeat split; [exact Hle | exact Hne | now apply mem_boundary |].
    apply Forall_forall. intros a Ha. apply Hobj.
    apply list_elem_of_In, in_concat. exists (sections r).
    split; [now apply in_map | now apply list_elem_of_In]. }
  unfold import_from_cache, chunk_boundaries_of. cbn [_data].
  rewrite groupby_export; [| exact Hsorted |].
  2:{ eapply Forall_impl; [exact Hrows |]. now intros r [_ Hne]. }
  destruct (import_groups_export h (map boundary rows) rows Himp h next (init msp))
    as (h' & next' & rows' & Himport & _ & Hagree & HF & Hnd' & _).
  eexists. split; [exact Himport |]. cbn [is_store is_self init Results.init _data app
                                           max_sample_period_td].
  split.
  - apply combined_sim; [exact Hnd' | exact Hnd | now apply same_rows_sym].
  - apply combined_sim; [exact Hnd | exact Hnd |].
    apply same_rows_self. intros x Hx. apply Hagree. now apply Hobj.
Qed.

Lemma cache_roundtrip_witness :
  exists st',
    import_from_cache (mkImport scenario_store 2%nat (init (max_sample_period_td scenario_acc)))
      (export_to_cache scenario_store scenario_acc) (chunk_boundaries_of scenario_acc)
    = (st', None) /\
    observe (combined (is_store st') (is_self st'))
      = observe (combined scenario_store scenario_acc) /\
    observe (combined (is_store st') scenario_acc)
      = observe (combined scenario_store scenario_acc).
Proof.
  apply (cache_roundtrip scenario_store 2%nat scenario_acc).
  - cbn. repeat constructor; lia.
  - cbn. repeat constructor; (lia || discriminate).
  - cbn. apply NoDup_ListNoDup. repeat constructor; cbn; intuition discriminate.
  - cbn. unfold cacheable, TF.ordered. repeat constructor; cbn; lia.
Defined.


(** * Further properties of the code *)

(** ** What [combined] returns and what it touches *)

Lemma combined_loop_sections (msp : Z) (rows : list Row) :
  forall st st' rows',
    combined_loop msp st rows = (st', rows', None) ->
    ls_sections st' = ls_sections st ++ concat (map sections rows').
Proof.
  induction rows as [| row rest IH]; intros st st' rows' H; cbn in H.
  - injection H as <- <-. cbn. now rewrite app_nil_r.
  - destruct (combined_row msp st row) as [[st1 row1] |] eqn:Hrow; [| discriminate].
    destruct (combined_loop msp st1 rest) as [[st2 rest2] r2] eqn:Hrest.
    injection H as <- <- ->. rewrite (IH _ _ _ Hrest). cbn.
    apply combined_row_inv in Hrow as (_ & _ & _ & _ & _ & -> & _).
    now rewrite app_assoc.
Qed.

Lemma finish_result (st : loop_state) (h' : store) (secs : list addr) :
  finish st = (h', Ok secs) -> secs = ls_sections st.
Proof.
  unfold finish. destruct (last (ls_sections st)); [| congruence].
  cbv zeta. destruct (end_ _); [congruence |].
  destruct (TF.set_end _ _); [congruence | discriminate].
Qed.

Lemma sublist_concat_kept (rows rows' : list Row) :
  Forall2 row_kept rows rows' ->
  concat (map sections rows') `sublist_of` concat (map sections rows).
Proof.
  induction 1 as [| r r' rest rest' Hk _ IH]; cbn; [constructor |].
  apply sublist_app; [now apply row_kept_sublist | exact IH].
Qed.

(** X1.  When [combined] returns, the list it returns is the concatenation
    of the lists of sections the records hold after the call, in record
    order; and it is the list of all the sections the records held before
    the call, in the same order, with some of them left out (the stitched
    ones): [combined] returns no object twice that was held once, and none
    that the accumulator did not hold. *)
Theorem combined_returns_remaining (h h' : store) (self self' : GoodSectionsResults)
    (secs : list addr) :
  combined h self = (h', self', Ok secs) ->
  secs = concat (map sections (_data self')) /\
  secs `sublist_of` concat (map sections (_data self)).
Proof.
  unfold combined. intros H.
  destruct (combined_loop _ _ _) as [[st rows] r] eqn:Hloop.
  destruct r as [e |]; [discriminate |].
  destruct (finish st) as [h1 res] eqn:Hfin. injection H as _ <- ->.
  apply finish_result in Hfin as ->.
  rewrite (combined_loop_sections _ _ _ _ _ Hloop). cbn. split; [reflexivity |].
  apply sublist_concat_kept. eapply combined_loop_kept. eassumption.
Qed.

Lemma combined_returns_remaining_witness :
  [0%nat] = concat (map sections (_data (snd (fst (combined scenario_store scenario_acc)))))
  /\ [0%nat] `sublist_of` concat (map sections (_data scenario_acc)).
Proof.
  apply (combined_returns_remaining scenario_store
           (fst (fst (combined scenario_store scenario_acc))) scenario_acc).
  reflexivity.
Defined.

Lemma combined_loop_footprint (msp : Z) (rows : list Row) :
  forall st st' rows' r x,
    combined_loop msp st rows = (st', rows', r) ->
    x ∉ ls_sections st ->
    x ∉ concat (map sections rows) ->
    ls_store st' x = ls_store st x /\ x ∉ ls_sections st'.
Proof.
  induction rows as [| row rest IH]; intros st st' rows' r x H Hs Hr; cbn in H.
  - injection H as <- _ _. auto.
  - cbn in Hr. apply not_elem_of_app in Hr as [Hrow Hrest].
    destruct (combined_row msp st row) as [[st1 row1] | e] eqn:Hstep.
    + destruct (combined_loop msp st1 rest) as [[st2 rest2] r2] eqn:Hloop.
      injection H as <- _ _.
      pose proof (combined_row_footprint _ _ _ _ _ Hstep x) as Hf.
      pose proof (row_kept_sublist _ _ (combined_row_kept _ _ _ _ _ Hstep)) as Hk.
      apply combined_row_inv in Hstep as (g1 & g2 & _ & _ & _ & Hsecs & _).
      destruct (IH _ _ _ _ x Hloop) as [Hx Hn]; [| exact Hrest |].
      * rewrite Hsecs. apply not_elem_of_app. split; [exact Hs |].
        intros Hin. apply Hrow. eapply elem_of_sublist; eassumption.
      * split; [| exact Hn]. rewrite Hx. apply Hf.
        apply not_elem_of_app. auto.
    + injection H as <- _ _. auto.
Qed.

Lemma finish_footprint (st : loop_state) (x : addr) :
  x ∉ ls_sections st -> fst (finish st) x = ls_store st x.
Proof.
  unfold finish. intros Hx.
  destruct (last (ls_sections st)) as [a |] eqn:La; [| reflexivity].
  assert (Hne : x <> a) by (intros ->; apply Hx; eapply last_Some_elem_of; eassumption).
  cbv zeta. destruct (end_ _); cbn; [now apply upd_ne |].
  destruct (TF.set_end _ _); cbn; now rewrite ?upd_ne.
Qed.

(** X2.  Whatever it returns or raises, [combined] leaves every object
    that no record of the accumulator references exactly as it was. *)
Theorem combined_store_frame (h : store) (self : GoodSectionsResults) (x : addr) :
  x ∉ concat (map sections (_data self)) ->
  fst (fst (combined h self)) x = h x.
Proof.
  intros Hx. unfold combined.
  destruct (combined_loop _ _ _) as [[st rows] r] eqn:Hloop.
  destruct (combined_loop_footprint _ _ _ _ _ _ x Hloop) as [Hst Hn];
    [apply not_elem_of_nil | exact Hx |].
  destruct r as [e |]; [exact Hst |].
  pose proof (finish_footprint st x Hn) as Hf.
  destruct (finish st) as [h1 res]. cbn in *. congruence.
Qed.

Lemma combined_store_frame_witness :
  fst (fst (combined scenario_store scenario_acc)) 7%nat = scenario_store 7%nat.
Proof.
  apply (combined_store_frame scenario_store scenario_acc 7%nat).
  cbn. intros H. apply list_elem_of_In in H. cbn in H. intuition discriminate.
Defined.

(** ** What [combined] does to an object *)

Lemma evolves_refl (tf : TimeFrame) : evolves tf tf.
Proof. unfold evolves, grows. auto. Qed.

Lemma evolves_trans (t1 t2 t3 : TimeFrame) :
  evolves t1 t2 -> evolves t2 t3 -> evolves t1 t3.
Proof. unfold evolves, grows. intros [(A & B & C) D] [(A' & B' & C') D']. auto 10. Qed.

Lemma evolves_set_end (new_end : option Z) (tf tf' : TimeFrame) :
  end_ tf = None -> TF.set_end new_end tf = Ok tf' -> evolves tf tf'.
Proof.
  unfold evolves, grows, TF.set_end, TF.ordered. intros He H.
  destruct new_end as [e |], (start tf) as [s |] eqn:Hs;
    try destruct (Z.ltb_spec e s); inversion H; subst; cbn; rewrite ?He, ?Hs;
    repeat split; intros; try congruence; lia.
Qed.

Lemma evolves_set_start (new_start : option Z) (tf tf' : TimeFrame) :
  start tf = None -> TF.set_start new_start tf = Ok tf' -> evolves tf tf'.
Proof.
  unfold evolves, grows, TF.set_start, TF.ordered. intros Hs H.
  destruct new_start as [s |], (end_ tf) as [e |] eqn:He;
    try destruct (Z.ltb_spec e s); inversion H; subst; cbn; rewrite ?He, ?Hs;
    repeat split; intros; try congruence; lia.
Qed.

Lemma evolves_include_end (tf : TimeFrame) : evolves tf (TF.set_include_end true tf).
Proof. unfold evolves, grows, TF.ordered. cbn. auto. Qed.

Lemma evolves_upd (h : store) (a : addr) (tf : TimeFrame) :
  evolves (h a) tf -> forall x, evolves (h x) (upd h a tf x).
Proof.
  intros H x. unfold upd. destruct (Nat.eqb_spec x a) as [-> |]; [exact H | apply evolves_refl].
Qed.

Lemma try_assign_evolves (h h' : store) (a : addr) (r : outcome TimeFrame) :
  (forall tf, r = Ok tf -> evolves (h a) tf) ->
  try_assign h a r = Ok h' -> forall x, evolves (h x) (h' x).
Proof.
  unfold try_assign. intros Hr H.
  destruct r as [tf | []]; inversion H; subst;
    [apply evolves_upd; now apply Hr | intros x; apply evolves_refl].
Qed.

Lemma stitch_evolves (msp : Z) (h h' : store) (secs : list addr) (prev : option Z)
    (idx : Z) (rs rs' : list addr) :
  stitch msp h secs prev idx rs = Ok (h', rs') -> forall x, evolves (h x) (h' x).
Proof.
  unfold stitch, last_item. intros H.
  destruct (adjacent msp prev idx); [| injection H as <- _; intros; apply evolves_refl].
  destruct rs as [| b rest]; [discriminate |].
  destruct (start (h b)); [injection H as <- _; intros; apply evolves_refl |].
  destruct (last secs) as [a |]; [| discriminate].
  destruct (end_ (h a)) eqn:He; [discriminate |].
  destruct (TF.set_end _ _) as [tf |] eqn:Hset; [| discriminate].
  injection H as <- _. apply evolves_upd. eapply evolves_set_end; eassumption.
Qed.

Lemma close_last_evolves (h h' : store) (secs : list addr) (prev : option Z) :
  close_last h secs prev = Ok h' -> forall x, evolves (h x) (h' x).
Proof.
  unfold close_last. intros H.
  destruct (last secs) as [a |]; [| injection H as <-; intros; apply evolves_refl].
  destruct (end_ (h a)) eqn:He; [injection H as <-; intros; apply evolves_refl |].
  eapply try_assign_evolves; [| exact H].
  intros tf Htf. eapply evolves_set_end; eassumption.
Qed.

Lemma open_first_evolves (h h' : store) (rs : list addr) (idx : Z) :
  open_first h rs idx = Ok h' -> forall x, evolves (h x) (h' x).
Proof.
  unfold open_first. intros H.
  destruct rs as [| b rest]; [injection H as <-; intros; apply evolves_refl |].
  destruct (start (h b)) eqn:Hs; [injection H as <-; intros; apply evolves_refl |].
  eapply try_assign_evolves; [| exact H].
  intros tf Htf. eapply evolves_set_start; eassumption.
Qed.

Lemma combined_row_evolves (msp : Z) (st st' : loop_state) (row row' : Row) :
  combined_row msp st row = Ok (st', row') ->
  forall x, evolves (ls_store st x) (ls_store st' x).
Proof.
  intros H x. apply combined_row_inv in H as (h1 & h2 & Hs & Hc & Ho & _).
  eapply evolves_trans; [eapply stitch_evolves; eassumption |].
  eapply evolves_trans; [eapply close_last_evolves; eassumption |].
  eapply open_first_evolves; eassumption.
Qed.

Lemma combined_loop_evolves (msp : Z) (rows : list Row) :
  forall st st' rows' r x,
    combined_loop msp st rows = (st', rows', r) ->
    evolves (ls_store st x) (ls_store st' x).
Proof.
  induction rows as [| row rest IH]; intros st st' rows' r x H; cbn in H.
  - injection H as <- _ _. apply evolves_refl.
  - destruct (combined_row msp st row) as [[st1 row1] | e] eqn:Hstep.
    + destruct (combined_loop msp st1 rest) as [[st2 rest2] r2] eqn:Hloop.
      injection H as <- _ _.
      eapply evolves_trans; [eapply combined_row_evolves; eassumption |].
      eapply IH; eassumption.
    + injection H as <- _ _. apply evolves_refl.
Qed.

Lemma finish_evolves (st : loop_state) (x : addr) :
  evolves (ls_store st x) (fst (finish st) x).
Proof.
  unfold finish. destruct (last (ls_sections st)) as [a |]; [| apply evolves_refl].
  cbv zeta.
  pose proof (evolves_upd (ls_store st) a _ (evolves_include_end (ls_store st a))) as H1.
  destruct (end_ _) eqn:He; [apply H1 |].
  destruct (TF.set_end _ _) as [tf |] eqn:Hset; [| apply H1].
  cbn. eapply evolves_trans; [apply H1 |].
  apply evolves_upd. eapply evolves_set_end; eassumption.
Qed.

Lemma combined_evolves (h : store) (self : GoodSectionsResults) (x : addr) :
  evolves (h x) (fst (fst (combined h self)) x).
Proof.
  unfold combined.
  destruct (combined_loop _ _ _) as [[st rows] r] eqn:Hloop.
  pose proof (combined_loop_evolves _ _ _ _ _ _ x Hloop) as H1.
  destruct r as [e |]; [exact H1 |].
  pose proof (finish_evolves st x) as H2.
  destruct (finish st) as [h1 res]. cbn in *.
  eapply evolves_trans; eassumption.
Qed.

(** X3.  [combined] only ever fills in what is open: on every object, a
    start that was set and an end that was set are the same after the
    call, and an inclusive end stays inclusive, whatever the call returns
    or raises and however the objects are shared. *)
Theorem combined_keeps_set_bounds (h : store) (self : GoodSectionsResults) (x : addr) :
  grows (h x) (fst (fst (combined h self)) x).
Proof. apply combined_evolves. Qed.

(** X4.  [combined] never leaves an interval whose end is before its
    start: an object whose bounds are in order before the call has its
    bounds in order after it. *)
Theorem combined_keeps_order (h : store) (self : GoodSectionsResults) (x : addr) :
  TF.ordered (h x) -> TF.ordered (fst (fst (combined h self)) x).
Proof. apply combined_evolves. Qed.

Lemma combined_keeps_order_witness :
  TF.ordered (fst (fst (combined scenario_store scenario_acc)) 0%nat).
Proof.
  apply (combined_keeps_order scenario_store scenario_acc 0%nat). exact I.
Defined.

(** ** Records that do not touch, and the exceptions of the stitch *)

Lemma close_last_total (h : store) (secs : list addr) (prev : option Z) :
  exists h', close_last h secs prev = Ok h'.
Proof.
  unfold close_last. destruct (last secs) as [a |]; [| eauto].
  destruct (end_ (h a)); [eauto |].
  unfold try_assign. destruct (TF.set_end prev (h a)) as [tf | e] eqn:Hset; [eauto |].
  apply set_end_raises in Hset as ->. eauto.
Qed.

Lemma combined_row_gapped (msp : Z) (st : loop_state) (row : Row) :
  adjacent msp (ls_prev st) (index row) = false ->
  exists h',
    combined_row msp st row
    = Ok (mkLoop h' (ls_sections st ++ sections row) (Some (row_end row)), row).
Proof.
  intros Hadj. unfold combined_row, stitch. rewrite Hadj.
  destruct (close_last_total (ls_store st) (ls_sections st) (ls_prev st)) as [h2 ->].
  destruct (open_first_spec h2 (sections row) (index row)) as (h3 & -> & _).
  exists h3. now destruct row.
Qed.

Lemma combined_loop_gapped (msp : Z) (rows : list Row) :
  forall st,
    gapped_from msp (ls_prev st) rows = true ->
    exists st', combined_loop msp st rows = (st', rows, None).
Proof.
  induction rows as [| row rest IH]; intros st H; cbn in H |- *; [eauto |].
  apply andb_true_iff in H as [Hadj Hrest]. apply negb_true_iff in Hadj.
  destruct (combined_row_gapped msp st row Hadj) as [h' ->].
  destruct (IH (mkLoop h' (ls_sections st ++ sections row) (Some (row_end row))) Hrest)
    as [st' ->].
  eauto.
Qed.

Lemma finish_raises (st : loop_state) (h' : store) (e : exn) :
  finish st = (h', Raise e) -> e = ValueError.
Proof.
  unfold finish. destruct (last (ls_sections st)); [| discriminate].
  cbv zeta. destruct (end_ _); [discriminate |].
  destruct (TF.set_end _ _) as [tf | x] eqn:Hset; [discriminate |].
  apply set_end_raises in Hset. congruence.
Qed.

(** X5.  When no record starts within the tolerance before the end of the
    record that precedes it, [combined] stitches nothing and asserts
    nothing: it leaves the accumulator as it is and returns all the
    sections of all the records, in order; the only exception it can raise
    is the [ValueError] of the final closing assignment. *)
Theorem combined_gapped (h : store) (self : GoodSectionsResults) :
  gapped_from (max_sample_period_td self) None (_data self) = true ->
  snd (fst (combined h self)) = self /\
  (snd (combined h self) = Ok (concat (map sections (_data self))) \/
   snd (combined h self) = Raise ValueError).
Proof.
  intros H. unfold combined.
  destruct (combined_loop_gapped _ _ (mkLoop h [] None) H) as [st Hloop].
  rewrite Hloop. pose proof (combined_loop_sections _ _ _ _ _ Hloop) as Hsecs.
  cbn in Hsecs. destruct (finish st) as [h1 [secs | e]] eqn:Hfin; cbn.
  - split; [now destruct self |]. left.
    apply finish_result in Hfin. congruence.
  - split; [now destruct self |]. right.
    apply finish_raises in Hfin. congruence.
Qed.

Lemma combined_gapped_witness :
  snd (fst (combined scenario_store (two_chunks 1 0 10 12 20 [0%nat] [1%nat])))
    = two_chunks 1 0 10 12 20 [0%nat] [1%nat] /\
  (snd (combined scenario_store (two_chunks 1 0 10 12 20 [0%nat] [1%nat]))
     = Ok (concat (map sections (_data (two_chunks 1 0 10 12 20 [0%nat] [1%nat])))) \/
   snd (combined scenario_store (two_chunks 1 0 10 12 20 [0%nat] [1%nat]))
     = Raise ValueError).
Proof.
  apply (combined_gapped scenario_store (two_chunks 1 0 10 12 20 [0%nat] [1%nat])).
  reflexivity.
Defined.

Lemma combined_loop_app (msp : Z) (rows1 rows2 : list Row) :
  forall st st1 rows1',
    combined_loop msp st rows1 = (st1, rows1', None) ->
    combined_loop msp st (rows1 ++ rows2)
    = let '(st2, rows2', r) := combined_loop msp st1 rows2 in
      (st2, rows1' ++ rows2', r).
Proof.
  induction rows1 as [| row rest IH]; intros st st1 rows1' H; cbn in H.
  - injection H as <- <-. cbn. now destruct (combined_loop msp st rows2) as [[? ?] ?].
  - cbn. destruct (combined_row msp st row) as [[s1 row1] |]; [| discriminate].
    destruct (combined_loop msp s1 rest) as [[s2 rest2] r2] eqn:Hrest.
    injection H as <- <- ->. rewrite (IH _ _ _ Hrest).
    now destruct (combined_loop msp s2 rows2) as [[? ?] ?].
Qed.

Lemma combined_returns_loop (h : store) (msp : Z) (rows : list Row)
    (vals : list TimeFrame) :
  observe (combined h (mkGSR msp rows)) = Ok vals ->
  exists st rows', combined_loop msp (mkLoop h [] None) rows = (st, rows', None).
Proof.
  unfold combined. cbn [max_sample_period_td _data].
  destruct (combined_loop _ _ _) as [[st rows'] [e |]]; [discriminate | eauto].
Qed.

(** X6.  A record with no section whose key is adjacent to the end of the
    record before it makes [combined] raise [IndexError], wherever it is
    in the accumulator and whatever follows it, as soon as [combined]
    gets through the records before it. *)
Theorem empty_adjacent_record_raises (h : store) (msp : Z) (pre post : list Row)
    (p r : Row) (vals : list TimeFrame) :
  observe (combined h (mkGSR msp (pre ++ [p]))) = Ok vals ->
  adjacent msp (Some (row_end p)) (index r) = true ->
  sections r = [] ->
  observe (combined h (mkGSR msp ((pre ++ [p]) ++ r :: post))) = Raise IndexError.
Proof.
  intros Hpre Hadj Hr.
  apply combined_returns_loop in Hpre as (st & rows' & Hloop).
  pose proof (combined_loop_prev _ _ _ _ _ Hloop) as Hprev.
  rewrite last_snoc in Hprev.
  unfold combined. cbn [max_sample_period_td _data].
  rewrite (combined_loop_app _ _ _ _ _ _ Hloop). cbn [combined_loop].
  unfold combined_row, stitch. rewrite Hprev, Hadj, Hr. reflexivity.
Qed.

Lemma empty_adjacent_record_raises_witness :
  observe (combined scenario_store
             (mkGSR 1 (([] ++ [mkRow 0 10 [0%nat]]) ++ mkRow 10 20 [] :: [mkRow 30 40 [1%nat]])))
  = Raise IndexError.
Proof.
  apply (empty_adjacent_record_raises scenario_store 1 [] [mkRow 30 40 [1%nat]]
           (mkRow 0 10 [0%nat]) (mkRow 10 20 [])
           [mkTimeFrame (Some 2) (Some 10) true]);
    reflexivity.
Defined.

Lemma first_row_open (msp kA T : Z) (h : store) (secsA : list addr) :
  exists h1,
    open_first h secsA kA = Ok h1 /\
    combined_row msp (mkLoop h [] None) (mkRow kA T secsA)
    = Ok (mkLoop h1 secsA (Some T), mkRow kA T secsA).
Proof.
  destruct (open_first_spec h secsA kA) as (h1 & Ho & _).
  exists h1. split; [exact Ho |].
  unfold combined_row, stitch, close_last. cbn. now rewrite Ho.
Qed.

(** X7.  When the first section of a chunk has an open start and the
    chunk is adjacent to the one before, but the last section of that one
    is already closed, [combined] raises [AssertionError]; and when the
    chunk before has no section at all, it raises [IndexError]. *)
Theorem stitch_without_open_end_raises (h : store) (msp kA T kB eB : Z)
    (secsA post : list addr) (b : addr) :
  b ∉ secsA ->
  start (h b) = None ->
  adjacent msp (Some T) kB = true ->
  (forall a, last secsA = Some a -> is_Some (end_ (h a)) ->
     observe (combined h (two_chunks msp kA T kB eB secsA (b :: post)))
     = Raise AssertionError) /\
  (last secsA = None ->
     observe (combined h (two_chunks msp kA T kB eB secsA (b :: post)))
     = Raise IndexError).
Proof.
  intros Hb Hs Hadj.
  enough (Hgoal :
    match last secsA with
    | Some a =>
        is_Some (end_ (h a)) ->
        observe (combined h (two_chunks msp kA T kB eB secsA (b :: post)))
        = Raise AssertionError
    | None =>
        observe (combined h (two_chunks msp kA T kB eB secsA (b :: post)))
        = Raise IndexError
    end).
  { split; [intros a La | intros La]; rewrite La in Hgoal; exact Hgoal. }
  unfold combined, two_chunks, append, Results.append, init, Results.init.
  cbn [_data max_sample_period_td app combined_loop].
  destruct (first_row_open msp kA T h secsA) as (h1 & Ho & ->).
  assert (Hb1 : start (h1 b) = None)
    by now rewrite (open_first_footprint _ _ _ _ Ho b Hb).
  unfold combined_row. cbn [ls_store ls_sections ls_prev index sections row_end].
  unfold stitch, last_item. rewrite Hadj, Hb1.
  destruct (last secsA) as [a |] eqn:La; [| reflexivity].
  intros [e He].
  destruct (open_first_evolves _ _ _ _ Ho a) as [(_ & Hend & _) _].
  rewrite (Hend e He). reflexivity.
Qed.

Lemma stitch_without_open_end_raises_witness :
  observe (combined (upd scenario_store 0%nat (mkTimeFrame (Some 2) (Some 5) false))
             (two_chunks 1 0 10 10 20 [0%nat] [1%nat]))
  = Raise AssertionError.
Proof.
  apply (proj1 (stitch_without_open_end_raises
                  (upd scenario_store 0%nat (mkTimeFrame (Some 2) (Some 5) false))
                  1 0 10 10 20 [0%nat] [] 1%nat
                  ltac:(intros H; apply list_elem_of_In in H; cbn in H; intuition discriminate)
                  eq_refl eq_refl) 0%nat).
  - reflexivity.
  - eexists. reflexivity.
Defined.

(** ** [combined] and [to_dict] never read [include_end] *)

Lemma set_end_same_bounds (new_end : option Z) (t1 t2 : TimeFrame) :
  start t1 = start t2 ->
  both (fun u1 u2 => start u1 = start u2 /\ end_ u1 = end_ u2)
       (TF.set_end new_end t1) (TF.set_end new_end t2).
Proof.
  unfold TF.set_end. intros <-.
  destruct new_end as [e |], (start t1) as [s |]; cbn; auto.
  destruct (e <? s); cbn; auto.
Qed.

Lemma set_start_same_bounds (new_start : option Z) (t1 t2 : TimeFrame) :
  end_ t1 = end_ t2 ->
  both (fun u1 u2 => start u1 = start u2 /\ end_ u1 = end_ u2)
       (TF.set_start new_start t1) (TF.set_start new_start t2).
Proof.
  unfold TF.set_start. intros <-.
  destruct new_start as [s |], (end_ t1) as [e |]; cbn; auto.
  destruct (e <? s); cbn; auto.
Qed.

Lemma same_bounds_upd (h1 h2 : store) (a : addr) (u1 u2 : TimeFrame) :
  same_bounds h1 h2 -> start u1 = start u2 -> end_ u1 = end_ u2 ->
  same_bounds (upd h1 a u1) (upd h2 a u2).
Proof.
  intros H Hs He x. unfold upd. destruct (Nat.eqb x a); [auto | apply H].
Qed.

Lemma try_assign_same_bounds (h1 h2 : store) (a : addr) (r1 r2 : outcome TimeFrame) :
  same_bounds h1 h2 ->
  both (fun u1 u2 => start u1 = start u2 /\ end_ u1 = end_ u2) r1 r2 ->
  both same_bounds (try_assign h1 a r1) (try_assign h2 a r2).
Proof.
  intros H Hr. unfold try_assign.
  destruct r1 as [u1 | e1], r2 as [u2 | e2]; cbn in Hr; try contradiction.
  - destruct Hr. cbn. now apply same_bounds_upd.
  - subst e2. destruct e1; cbn; auto.
Qed.

Section SameBounds.

Variables (h1 h2 : store).
Hypothesis (HB : same_bounds h1 h2).

Lemma stitch_same_bounds (msp : Z) (secs : list addr) (prev : option Z) (idx : Z)
    (rs : list addr) :
  both (fun x1 x2 => same_bounds (fst x1) (fst x2) /\ snd x1 = snd x2)
       (stitch msp h1 secs prev idx rs) (stitch msp h2 secs prev idx rs).
Proof.
  unfold stitch. destruct (adjacent msp prev idx); [| cbn; auto].
  destruct rs as [| b rest]; [reflexivity |].
  destruct (HB b) as [<- <-]. destruct (start (h1 b)); [cbn; auto |].
  destruct (last_item secs) as [a |]; [| reflexivity].
  destruct (HB a) as [Hs <-]. destruct (end_ (h1 a)); [reflexivity |].
  pose proof (set_end_same_bounds (end_ (h1 b)) _ _ Hs) as Hset.
  destruct (TF.set_end _ (h1 a)) as [u1 | e1], (TF.set_end _ (h2 a)) as [u2 | e2];
    cbn in Hset |- *; try contradiction; [| exact Hset].
  destruct Hset. split; [now apply same_bounds_upd | reflexivity].
Qed.

Lemma close_last_same_bounds (secs : list addr) (prev : option Z) :
  both same_bounds (close_last h1 secs prev) (close_last h2 secs prev).
Proof.
  unfold close_last. destruct (last secs) as [a |]; [| exact HB].
  destruct (HB a) as [Hs <-]. destruct (end_ (h1 a)); [exact HB |].
  apply try_assign_same_bounds; [exact HB | now apply set_end_same_bounds].
Qed.

Lemma open_first_same_bounds (rs : list addr) (idx : Z) :
  both same_bounds (open_first h1 rs idx) (open_first h2 rs idx).
Proof.
  unfold open_first. destruct rs as [| b rest]; [exact HB |].
  destruct (HB b) as [<- He]. destruct (start (h1 b)); [exact HB |].
  apply try_assign_same_bounds; [exact HB | now apply set_start_same_bounds].
Qed.

End SameBounds.

Lemma combined_row_same_bounds (msp : Z) (st1 st2 : loop_state) (row : Row) :
  same_loop_state st1 st2 ->
  both (fun x1 x2 => same_loop_state (fst x1) (fst x2) /\ snd x1 = snd x2)
       (combined_row msp st1 row) (combined_row msp st2 row).
Proof.
  intros (HB & Hsecs & Hprev). unfold combined_row. rewrite <- Hsecs, <- Hprev.
  pose proof (stitch_same_bounds _ _ HB msp (ls_sections st1) (ls_prev st1)
                (index row) (sections row)) as Hst.
  destruct (stitch msp (ls_store st1) _ _ _ _) as [[g1 rs1] | e1],
           (stitch msp (ls_store st2) _ _ _ _) as [[g2 rs2] | e2];
    cbn in Hst; try contradiction; [| exact Hst].
  destruct Hst as [HB1 <-].
  pose proof (close_last_same_bounds _ _ HB1 (ls_sections st1) (ls_prev st1)) as Hcl.
  destruct (close_last g1 _ _) as [k1 | e1], (close_last g2 _ _) as [k2 | e2];
    cbn in Hcl; try contradiction; [| exact Hcl].
  pose proof (open_first_same_bounds _ _ Hcl rs1 (index row)) as Hop.
  destruct (open_first k1 _ _) as [m1 | e1], (open_first k2 _ _) as [m2 | e2];
    cbn in Hop; try contradiction; [| exact Hop].
  cbn. unfold same_loop_state. cbn. auto.
Qed.

Lemma combined_loop_same_bounds (msp : Z) (rows : list Row) :
  forall st1 st2,
    same_loop_state st1 st2 ->
    same_loop_state (fst (fst (combined_loop msp st1 rows)))
                    (fst (fst (combined_loop msp st2 rows))) /\
    snd (fst (combined_loop msp st1 rows)) = snd (fst (combined_loop msp st2 rows)) /\
    snd (combined_loop msp st1 rows) = snd (combined_loop msp st2 rows).
Proof.
  induction rows as [| row rest IH]; intros st1 st2 H; cbn; [auto |].
  pose proof (combined_row_same_bounds msp st1 st2 row H) as Hrow.
  destruct (combined_row msp st1 row) as [[s1 r1] | e1],
           (combined_row msp st2 row) as [[s2 r2] | e2];
    cbn in Hrow; try contradiction.
  - destruct Hrow as [Hs <-]. specialize (IH s1 s2 Hs).
    destruct (combined_loop msp s1 rest) as [[t1 q1] o1],
             (combined_loop msp s2 rest) as [[t2 q2] o2].
    cbn in *. destruct IH as (A & B & C). subst. auto.
  - subst e2. cbn. auto.
Qed.

Lemma finish_same_bounds (st1 st2 : loop_state) :
  same_loop_state st1 st2 ->
  same_bounds (fst (finish st1)) (fst (finish st2)) /\
  snd (finish st1) = snd (finish st2).
Proof.
  intros (HB & Hsecs & Hprev). unfold finish. rewrite <- Hsecs, <- Hprev.
  destruct (last (ls_sections st1)) as [a |]; [| cbn; auto].
  cbv zeta. rewrite !upd_eq. cbn [TF.set_include_end end_].
  destruct (HB a) as [Hs <-].
  assert (HB1 : same_bounds
                  (upd (ls_store st1) a (TF.set_include_end true (ls_store st1 a)))
                  (upd (ls_store st2) a (TF.set_include_end true (ls_store st2 a))))
    by (apply same_bounds_upd; cbn; auto; apply HB).
  destruct (end_ (ls_store st1 a)); [cbn; auto |].
  pose proof (set_end_same_bounds (ls_prev st1)
                (TF.set_include_end true (ls_store st1 a))
                (TF.set_include_end true (ls_store st2 a)) Hs) as Hset.
  destruct (TF.set_end _ (TF.set_include_end true (ls_store st1 a))) as [u1 | e1],
           (TF.set_end _ (TF.set_include_end true (ls_store st2 a))) as [u2 | e2];
    cbn in Hset |- *; try contradiction.
  - destruct Hset. split; [now apply same_bounds_upd | reflexivity].
  - subst e2. auto.
Qed.

Lemma combined_same_bounds (h1 h2 : store) (self : GoodSectionsResults) :
  same_bounds h1 h2 ->
  same_bounds (fst (fst (combined h1 self))) (fst (fst (combined h2 self))) /\
  snd (fst (combined h1 self)) = snd (fst (combined h2 self)) /\
  snd (combined h1 self) = snd (combined h2 self).
Proof.
  intros HB. unfold combined.
  destruct (combined_loop_same_bounds (max_sample_period_td self) (_data self)
              (mkLoop h1 [] None) (mkLoop h2 [] None)) as (Hst & Hrows & Hr).
  { unfold same_loop_state. cbn. auto. }
  destruct (combined_loop _ (mkLoop h1 [] None) _) as [[st1 rows1] r1],
           (combined_loop _ (mkLoop h2 [] None) _) as [[st2 rows2] r2].
  cbn in Hst, Hrows, Hr. subst rows2 r2.
  destruct r1 as [e |]; [cbn; destruct Hst; auto |].
  destruct (finish_same_bounds st1 st2 Hst) as [HB' Hres].
  destruct (finish st1) as [g1 res1], (finish st2) as [g2 res2]. cbn in *.
  subst. auto.
Qed.

(** X8.  [combined] never reads [include_end]: on two stores whose
    objects have the same bounds, whatever their [include_end] flags, it
    returns the same objects or raises the same exception, leaves the same
    records, and leaves two stores whose objects have the same bounds
    again. *)
Theorem combined_ignores_include_end (h1 h2 : store) (self : GoodSectionsResults) :
  same_bounds h1 h2 ->
  snd (combined h1 self) = snd (combined h2 self) /\
  snd (fst (combined h1 self)) = snd (fst (combined h2 self)) /\
  same_bounds (fst (fst (combined h1 self))) (fst (fst (combined h2 self))).
Proof.
  intros HB. destruct (combined_same_bounds h1 h2 self HB) as (A & B & C). auto.
Qed.

Lemma same_bounds_exclusive (h : store) : same_bounds h (exclusive h).
Proof. intros x. unfold exclusive. cbn. auto. Qed.

Lemma combined_ignores_include_end_witness :
  snd (combined scenario_store scenario_acc)
    = snd (combined (upd scenario_store 1%nat (mkTimeFrame None (Some 15) true))
             scenario_acc) /\
  snd (fst (combined scenario_store scenario_acc))
    = snd (fst (combined (upd scenario_store 1%nat (mkTimeFrame None (Some 15) true))
                  scenario_acc)) /\
  same_bounds
    (fst (fst (combined scenario_store scenario_acc)))
    (fst (fst (combined (upd scenario_store 1%nat (mkTimeFrame None (Some 15) true))
                 scenario_acc))).
Proof.
  apply (combined_ignores_include_end scenario_store
           (upd scenario_store 1%nat (mkTimeFrame None (Some 15) true)) scenario_acc).
  intros [| [| x]]; cbn; auto.
Defined.

Lemma to_dict_same_bounds (h1 h2 : store) (self : GoodSectionsResults) :
  same_bounds h1 h2 -> snd (to_dict h1 self) = snd (to_dict h2 self).
Proof.
  intros HB. destruct (combined_same_bounds h1 h2 self HB) as (Hst & _ & Hr).
  unfold to_dict.
  destruct (combined h1 self) as [[g1 s1] r1], (combined h2 self) as [[g2 s2] r2].
  cbn in *. subst r2. destruct r1 as [secs | e]; [| reflexivity].
  do 3 f_equal. apply map_ext. intros a. unfold TimeFrame_to_dict.
  destruct (Hst a) as [-> ->]. reflexivity.
Qed.

(** ** [to_dict] through the cache *)

Lemma export_exclusive (h : store) (self : GoodSectionsResults) :
  export_to_cache (exclusive h) self = export_to_cache h self.
Proof. reflexivity. Qed.

Lemma to_dict_observe (h : store) (self : GoodSectionsResults) :
  snd (to_dict h self)
  = match observe (combined h self) with
    | Ok vals => Ok (mkResult (mkStatistics (map TimeFrame_to_dict vals)))
    | Raise e => Raise e
    end.
Proof.
  unfold to_dict, observe. destruct (combined h self) as [[h1 self1] [secs | e]]; cbn;
    [| reflexivity].
  now rewrite map_map.
Qed.

(** X9.  [to_dict] survives the round trip through the cache, inclusive
    ends or not: for an accumulator whose keys increase strictly, whose
    records each have a key not after their end and at least one section,
    and whose sections are distinct objects with their bounds in order,
    importing the exported table against the accumulator's own chunk
    boundaries raises nothing, and [to_dict] on the new accumulator
    returns the dictionary (or raises the exception) that [to_dict] gives
    on the original. *)
Theorem to_dict_roundtrip (h : store) (next : addr) (self : GoodSectionsResults) :
  StronglySorted Z.lt (map index (_data self)) ->
  Forall (fun r => index r <= row_end r /\ sections r <> []) (_data self) ->
  NoDup (concat (map sections (_data self))) ->
  Forall (fun a => TF.ordered (h a)) (concat (map sections (_data self))) ->
  exists st',
    import_from_cache (mkImport h next (init (max_sample_period_td self)))
      (export_to_cache h self) (chunk_boundaries_of self) = (st', None) /\
    snd (to_dict (is_store st') (is_self st')) = snd (to_dict h self).
Proof.
  destruct self as [msp rows]. cbn [_data max_sample_period_td].
  intros Hsorted Hrows Hnd Hobj.
  rewrite Forall_forall in Hobj.
  assert (Himp : Forall (importable (exclusive h) (map boundary rows)) rows).
  { apply Forall_forall. intros r Hr. rewrite Forall_forall in Hrows.
    destruct (Hrows r Hr) as [Hle Hne]. apply list_elem_of_In in Hr.
    repeat split; [exact Hle | exact Hne | now apply mem_boundary |].
    apply Forall_forall. intros a Ha. split; [| reflexivity].
    apply (Hobj a). apply list_elem_of_In, in_concat. exists (sections r).
    split; [now apply in_map | now apply list_elem_of_In]. }
  rewrite <- export_exclusive.
  unfold import_from_cache, chunk_boundaries_of. cbn [_data].
  rewrite groupby_export; [| exact Hsorted |].
  2:{ eapply Forall_impl; [exact Hrows |]. now intros r [_ Hne]. }
  destruct (import_groups_export (exclusive h) (map boundary rows) rows Himp
              h next (init msp))
    as (h' & next' & rows' & Himport & _ & _ & HF & Hnd' & _).
  eexists. split; [exact Himport |].
  cbn [is_store is_self init Results.init _data app max_sample_period_td].
  rewrite (to_dict_same_bounds h (exclusive h)) by apply same_bounds_exclusive.
  rewrite !to_dict_observe.
  now rewrite (combined_sim msp h' (exclusive h) rows' rows Hnd' Hnd (same_rows_sym _ _ _ _ HF)).
Qed.

Lemma to_dict_roundtrip_witness :
  exists st',
    import_from_cache
      (mkImport (upd scenario_store 0%nat (mkTimeFrame (Some 2) None true)) 2%nat
         (init (max_sample_period_td scenario_acc)))
      (export_to_cache (upd scenario_store 0%nat (mkTimeFrame (Some 2) None true))
         scenario_acc)
      (chunk_boundaries_of scenario_acc) = (st', None) /\
    snd (to_dict (is_store st') (is_self st'))
    = snd (to_dict (upd scenario_store 0%nat (mkTimeFrame (Some 2) None true))
             scenario_acc).
Proof.
  apply (to_dict_roundtrip (upd scenario_store 0%nat (mkTimeFrame (Some 2) None true))
           2%nat scenario_acc).
  - cbn. repeat constructor; lia.
  - cbn. repeat constructor; (lia || discriminate).
  - cbn. apply NoDup_ListNoDup. repeat constructor; cbn; intuition discriminate.
  - cbn. unfold TF.ordered. repeat constructor.
Defined.

Lemma combined_loop_prev_some (msp : Z) (rows : list Row) :
  forall st st' rows',
    combined_loop msp st rows = (st', rows', None) ->
    ls_sections st = [] ->
    ls_sections st' <> [] ->
    is_Some (ls_prev st').
Proof.
  intros st st' rows' H Hnil Hne. destruct rows as [| row rest].
  - apply combined_loop_nil in H. subst st'. contradiction.
  - rewrite (combined_loop_prev _ _ _ _ _ H).
    destruct (last (row :: rest)) eqn:E; [eauto |].
    apply last_None in E. discriminate.
Qed.

(** X10.  Whenever [to_dict] returns, the last interval it reports has a
    bounded end: the final closing assignment has either closed it or
    raised. *)
Theorem to_dict_last_end_bounded (h h' : store) (self self' : GoodSectionsResults)
    (d : result_dict) (x : interval_dict) :
  to_dict h self = (h', self', Ok d) ->
  last (good_sections (statistics d)) = Some x ->
  is_Some (d_end x).
Proof.
  unfold to_dict, combined. intros H Hx.
  destruct (combined_loop _ _ _) as [[st rows] r] eqn:Hloop.
  destruct r as [e |]; [discriminate |].
  destruct (finish st) as [h1 res] eqn:Hfin.
  destruct res as [secs |]; [| discriminate].
  injection H as <- _ <-. cbn in Hx.
  pose proof (finish_result _ _ _ Hfin) as ->.
  apply last_Some in Hx as [pre Hx].
  destruct (last (ls_sections st)) as [a |] eqn:La.
  2:{ apply last_None in La. rewrite La in Hx. now destruct pre. }
  pose proof La as La'. apply last_Some in La' as [k Hk].
  rewrite Hk, map_app in Hx. cbn in Hx. apply app_inj_tail in Hx as [_ <-].
  unfold TimeFrame_to_dict. cbn.
  assert (Hprev : is_Some (ls_prev st)).
  { eapply combined_loop_prev_some; [exact Hloop | reflexivity |].
    rewrite Hk. now destruct k. }
  destruct Hprev as [p Hp].
  unfold finish in Hfin. rewrite La in Hfin. cbv zeta in Hfin.
  rewrite upd_eq in Hfin. cbn [TF.set_include_end end_] in Hfin.
  destruct (end_ (ls_store st a)) as [e |] eqn:He.
  - injection Hfin as <-. rewrite upd_eq. cbn. rewrite He. eauto.
  - destruct (TF.set_end _ _) as [tf |] eqn:Hset; [| discriminate].
    injection Hfin as <-. rewrite upd_eq.
    apply set_end_ok in Hset as (_ & -> & _). rewrite Hp. eauto.
Qed.

Lemma to_dict_last_end_bounded_witness :
  is_Some (d_end (mkDict (Some 2) (Some 15))).
Proof.
  apply (to_dict_last_end_bounded scenario_store
           (fst (fst (to_dict scenario_store scenario_acc))) scenario_acc
           (snd (fst (to_dict scenario_store scenario_acc)))
           (mkResult (mkStatistics [mkDict (Some 2) (Some 15)]))
           (mkDict (Some 2) (Some 15)));
    reflexivity.
Defined.

(** ** The cache codec: what the export keeps and what the import builds *)


Lemma init_value (s e : option Z) (tf : TimeFrame) :
  TF.init s e = Ok tf -> tf = mkTimeFrame s e false /\ cacheable tf.
Proof.
  unfold TF.init, TF.set_start, TF.set_end, cacheable, TF.ordered.
  destruct s as [s |], e as [e |]; cbn; try (intros [= <-]; cbn; auto).
  destruct (Z.ltb_spec e s); [discriminate |]. intros [= <-]. cbn. auto.
Qed.

Lemma new_timeframes_spec (group : list CacheRow) :
  forall h next h' next' o,
    new_timeframes h next group = (h', next', o) ->
    (next <= next')%nat /\
    (forall x, (x < next)%nat -> h' x = h x) /\
    (forall l, o = Ok l ->
       l = seq next (length group) /\ next' = (next + length group)%nat /\
       map h' l = map row_timeframe group /\
       Forall (fun a => cacheable (h' a)) l).
Proof.
  induction group as [| c rest IH]; intros h next h' next' o H; cbn in H.
  - injection H as <- <- <-. split; [lia |]. split; [auto |].
    intros l [= <-]. cbn. rewrite Nat.add_0_r. repeat split; constructor.
  - destruct (TF.init _ _) as [tf |] eqn:Hinit.
    2:{ injection H as <- <- <-. split; [lia |]. split; [auto | discriminate]. }
    apply init_value in Hinit as [-> Hc]. fold (row_timeframe c) in *.
    cbn [alloc] in H.
    destruct (new_timeframes (upd h next (row_timeframe c)) (S next) rest)
      as [[h2 next2] o2] eqn:Hrest.
    injection H as <- <- <-.
    destruct (IH _ _ _ _ _ Hrest) as (Hle & Hagree & Hok).
    assert (Hnext : h2 next = row_timeframe c)
      by (rewrite Hagree by lia; apply upd_eq).
    split; [lia |]. split.
    + intros x Hx. rewrite Hagree by lia. apply upd_ne. lia.
    + destruct o2 as [l2 |]; [| discriminate]. intros l [= <-].
      destruct (Hok l2 eq_refl) as (El & En & Hmap & Hall). subst l2 next2.
      cbn. rewrite Hnext, Hmap, Nat.add_succ_r. repeat split.
      constructor; [now rewrite Hnext | exact Hall].
Qed.


Lemma added_nil (st : import_state) : added st st [].
Proof.
  unfold added. cbn. rewrite app_nil_r. repeat split; auto; constructor.
Qed.

Lemma import_group_added (known : list TimeFrame) (st st' : import_state)
    (g : Z * list CacheRow) (e : option exn) :
  import_group known st g = (st', e) ->
  added st st' [] \/
  (e = None /\
   exists first,
     head (snd g) = Some first /\
     added st st' [mkRow (fst g) (cache_end first) (seq (is_next st) (length (snd g)))]).
Proof.
  destruct g as [name group]. unfold import_group. intros H.
  destruct (negb _); [injection H as <- _; left; apply added_nil |].
  destruct group as [| first rest]; [injection H as <- _; left; apply added_nil |].
  destruct (TF.init _ _) as [timeframe |]; [| injection H as <- _; left; apply added_nil].
  destruct (TF.mem _ known); [| injection H as <- _; left; apply added_nil].
  destruct (new_timeframes _ _ _) as [[h1 next1] o] eqn:Hnew.
  apply new_timeframes_spec in Hnew as (Hle & Hagree & Hok).
  destruct o as [l |]; injection H as <- <-.
  - right. split; [reflexivity |]. exists first. split; [reflexivity |].
    destruct (Hok l eq_refl) as (-> & -> & _ & Hall).
    unfold added. cbn [is_self is_next is_store append Results.append _data
                       max_sample_period_td map concat sections fst snd].
    rewrite app_nil_r. repeat split; auto.
    + apply NoDup_seq.
    + apply Forall_forall. intros a Ha. rewrite Forall_forall in Hall.
      split; [apply elem_of_seq in Ha; lia | now apply Hall].
  - left. unfold added. cbn. rewrite app_nil_r. repeat split; auto; constructor.
Qed.

Lemma added_trans (st1 st2 st3 : import_state) (new1 new2 : list Row) :
  added st1 st2 new1 -> added st2 st3 new2 -> added st1 st3 (new1 ++ new2).
Proof.
  intros (D1 & M1 & L1 & A1 & N1 & F1) (D2 & M2 & L2 & A2 & N2 & F2).
  rewrite Forall_forall in F1, F2.
  unfold added. rewrite map_app, concat_app. repeat split.
  - now rewrite D2, D1, app_assoc.
  - congruence.
  - lia.
  - intros x Hx. rewrite A2 by lia. now apply A1.
  - apply NoDup_app. repeat split; [exact N1 | | exact N2].
    intros a Ha Ha'. apply F1 in Ha. apply F2 in Ha'. lia.
  - apply Forall_app. split; apply Forall_forall; intros a Ha.
    + destruct (F1 a Ha) as [Hr Hc]. split; [lia |]. now rewrite A2 by lia.
    + destruct (F2 a Ha) as [Hr Hc]. split; [lia | exact Hc].
Qed.

Lemma import_groups_added (known : list TimeFrame) (gs : list (Z * list CacheRow)) :
  forall st st' e,
    import_groups known st gs = (st', e) ->
    exists new, added st st' new /\ map index new `sublist_of` map fst gs.
Proof.
  induction gs as [| g rest IH]; intros st st' e H; cbn in H.
  - injection H as <- _. exists []. split; [apply added_nil | constructor].
  - destruct (import_group known st g) as [st1 e1] eqn:Hg.
    apply import_group_added in Hg.
    assert (Hone : exists new1, added st st1 new1 /\
                                (new1 = [] \/ exists r, new1 = [r] /\ index r = fst g)).
    { destruct Hg as [Hg | (_ & first & _ & Hg)]; eauto 10. }
    destruct Hone as (new1 & Hadd1 & Hshape).
    assert (Hsub1 : forall l, l `sublist_of` map fst rest ->
                              map index new1 ++ l `sublist_of` fst g :: map fst rest).
    { intros l Hl. destruct Hshape as [-> | (r & -> & <-)]; cbn.
      - now apply sublist_cons.
      - now apply sublist_skip. }
    destruct e1 as [e1 |].
    + injection H as <- _. exists new1. split; [exact Hadd1 |].
      rewrite <- (app_nil_r (map index new1)). apply Hsub1. apply sublist_nil_l.
    + apply IH in H as (new2 & Hadd2 & Hsub2).
      exists (new1 ++ new2). split; [eapply added_trans; eassumption |].
      rewrite map_app. cbn. now apply Hsub1.
Qed.

Lemma insert_key_elem (k x : Z) (ks : list Z) :
  In x (insert_key k ks) <-> x = k \/ In x ks.
Proof.
  induction ks as [| k' ks IH]; cbn; [intuition |].
  destruct (k <? k'); [cbn; intuition |].
  destruct (Z.eqb_spec k k') as [-> |]; cbn; [intuition | rewrite IH; intuition].
Qed.

Lemma insert_key_sorted (k : Z) (ks : list Z) :
  StronglySorted Z.lt ks -> StronglySorted Z.lt (insert_key k ks).
Proof.
  induction 1 as [| k' ks Hs IH Hall]; cbn; [repeat constructor |].
  destruct (Z.ltb_spec k k') as [Hlt | Hge].
  - constructor; [now constructor |]. constructor; [exact Hlt |].
    eapply Forall_impl; [exact Hall |]. cbn. intros; lia.
  - destruct (Z.eqb_spec k k') as [-> | Hne]; [now constructor |].
    constructor; [exact IH |]. apply Forall_forall. intros x Hx.
    apply list_elem_of_In, insert_key_elem in Hx as [-> | Hx]; [lia |].
    rewrite Forall_forall in Hall. apply Hall. now apply list_elem_of_In.
Qed.

Lemma group_keys_sorted (t : list CacheRow) : StronglySorted Z.lt (group_keys t).
Proof.
  unfold group_keys. induction (map cache_index t) as [| k ks IH]; cbn;
    [constructor | now apply insert_key_sorted].
Qed.

Lemma sorted_sublist (l k : list Z) :
  l `sublist_of` k -> StronglySorted Z.lt k -> StronglySorted Z.lt l.
Proof.
  induction 1 as [| x l k Hsub IH | x l k Hsub IH]; intros Hs.
  - constructor.
  - apply StronglySorted_inv in Hs as [Hs Hall]. constructor; [now apply IH |].
    rewrite Forall_forall in Hall |- *. intros y Hy. apply Hall.
    eapply elem_of_sublist; eassumption.
  - apply StronglySorted_inv in Hs as [Hs _]. now apply IH.
Qed.

Lemma groupby_keys (t : list CacheRow) : map fst (groupby t) = group_keys t.
Proof. unfold groupby. rewrite map_map. cbn. apply map_id. Qed.

(** X12.  Whatever the table, [import_from_cache] only adds: it keeps the
    tolerance and the records the accumulator already has, assigns to no
    object that already exists, and the records it appends hold new,
    pairwise distinct objects, each with its bounds in order and an
    exclusive end; this holds also when the import ends with an
    exception. *)
Theorem import_only_adds (st : import_state) (cached_stat : list CacheRow)
    (known : list TimeFrame) :
  let st' := fst (import_from_cache st cached_stat known) in
  exists new,
    _data (is_self st') = _data (is_self st) ++ new /\
    max_sample_period_td (is_self st') = max_sample_period_td (is_self st) /\
    (forall x, (x < is_next st)%nat -> is_store st' x = is_store st x) /\
    NoDup (concat (map sections new)) /\
    Forall (fun a => (is_next st <= a < is_next st')%nat /\
                     TF.ordered (is_store st' a) /\
                     include_end (is_store st' a) = false)
           (concat (map sections new)).
Proof.
  cbv zeta. unfold import_from_cache.
  destruct (import_groups known st (groupby cached_stat)) as [st' e] eqn:H.
  apply import_groups_added in H as (new & (Hd & Hm & _ & Ha & Hn & Hf) & _).
  exists new. cbn [fst]. repeat split; assumption.
Qed.

(** X13.  The records [import_from_cache] appends come in strictly
    increasing key order, whatever the order of the rows of the table:
    one record at most per key, the smallest key first. *)
Theorem import_appends_sorted (st : import_state) (cached_stat : list CacheRow)
    (known : list TimeFrame) :
  exists new,
    _data (is_self (fst (import_from_cache st cached_stat known)))
      = _data (is_self st) ++ new /\
    StronglySorted Z.lt (map index new).
Proof.
  unfold import_from_cache.
  destruct (import_groups known st (groupby cached_stat)) as [st' e] eqn:H.
  apply import_groups_added in H as (new & (Hd & _) & Hsub).
  exists new. split; [exact Hd |].
  eapply sorted_sublist; [exact Hsub |]. rewrite groupby_keys. apply group_keys_sorted.
Qed.

Lemma unique_In (x : Z) (l : list Z) : In x l -> In x (unique l).
Proof.
  induction l as [| y rest IH]; cbn; [auto |].
  intros [-> | Hx]; [now left |].
  destruct (Z.eq_dec x y) as [-> | Hne]; [now left |].
  right. apply filter_In. split; [now apply IH |].
  apply negb_true_iff. now apply Z.eqb_neq.
Qed.

Lemma unique_single (l : list Z) (x y : Z) :
  length (unique l) = 1%nat -> In x l -> In y l -> x = y.
Proof.
  intros Hlen Hx Hy. apply unique_In in Hx, Hy.
  destruct (unique l) as [| z [| z' u]]; try discriminate.
  cbn in Hx, Hy. intuition congruence.
Qed.

Lemma group_keys_In (t : list CacheRow) (k : Z) :
  In k (group_keys t) <-> In k (map cache_index t).
Proof.
  unfold group_keys. induction (map cache_index t) as [| k' ks IH]; cbn; [tauto |].
  rewrite insert_key_elem, IH. intuition.
Qed.

Lemma groupby_In (t : list CacheRow) (c : CacheRow) :
  In c t ->
  In (cache_index c, List.filter (fun r => cache_index r =? cache_index c) t) (groupby t).
Proof.
  intros Hc. unfold groupby.
  apply (in_map (fun k => (k, List.filter (fun r => cache_index r =? k) t))).
  apply group_keys_In. now apply in_map.
Qed.


Lemma import_group_checked (known : list TimeFrame) (st st' : import_state)
    (g : Z * list CacheRow) :
  import_group known st g = (st', None) -> checked g.
Proof.
  destruct g as [name group]. unfold import_group, checked. cbn [fst snd].
  destruct (Nat.eqb_spec (length (unique (map cache_end group))) 1) as [Hlen |];
    [| discriminate].
  cbn [negb]. destruct group as [| first rest]; [discriminate |].
  unfold TF.init, TF.set_start, TF.set_end. cbn [start end_ include_end].
  destruct (Z.ltb_spec (cache_end first) name); [discriminate |].
  intros _. split; [exact Hlen |]. exists first. split; [reflexivity | lia].
Qed.

Lemma import_groups_checked (known : list TimeFrame) (gs : list (Z * list CacheRow)) :
  forall st st',
    import_groups known st gs = (st', None) -> Forall checked gs.
Proof.
  induction gs as [| g rest IH]; intros st st' H; cbn in H; [constructor |].
  destruct (import_group known st g) as [st1 [e1 |]] eqn:Hg; [discriminate |].
  constructor; [eapply import_group_checked; eassumption | eapply IH; eassumption].
Qed.

(** X14.  [import_from_cache] checks every group before it looks at the
    known boundaries: if it ends without an exception, then in the whole
    table, stale rows included, rows with the same key have the same end,
    and no row has its key after its end. *)
Theorem import_checks_table (st st' : import_state) (cached_stat : list CacheRow)
    (known : list TimeFrame) :
  import_from_cache st cached_stat known = (st', None) ->
  (forall c1 c2, In c1 cached_stat -> In c2 cached_stat ->
     cache_index c1 = cache_index c2 -> cache_end c1 = cache_end c2) /\
  (forall c, In c cached_stat -> cache_index c <= cache_end c).
Proof.
  unfold import_from_cache. intros H. apply import_groups_checked in H.
  rewrite Forall_forall in H.
  assert (Hgroup : forall c, In c cached_stat ->
            checked (cache_index c,
                     List.filter (fun r => cache_index r =? cache_index c) cached_stat) /\
            In c (List.filter (fun r => cache_index r =? cache_index c) cached_stat)).
  { intros c Hc. split; [apply H, list_elem_of_In, groupby_In, Hc |].
    apply filter_In. split; [exact Hc | apply Z.eqb_refl]. }
  split.
  - intros c1 c2 H1 H2 Hk.
    destruct (Hgroup c1 H1) as [[Hlen _] Hin1]. destruct (Hgroup c2 H2) as [_ Hin2].
    rewrite <- Hk in Hin2. cbn [snd] in Hlen.
    eapply unique_single; [exact Hlen | |]; now apply in_map.
  - intros c Hc. destruct (Hgroup c Hc) as [[Hlen (first & Hhead & Hle)] Hin].
    cbn [fst snd] in *.
    assert (Hfirst : In first (List.filter (fun r => cache_index r =? cache_index c)
                                 cached_stat)).
    { destruct (List.filter _ cached_stat); [discriminate |].
      injection Hhead as ->. now left. }
    rewrite (unique_single _ (cache_end c) (cache_end first) Hlen); [exact Hle | |];
      now apply in_map.
Qed.

Lemma import_checks_table_witness :
  (forall c1 c2,
     In c1 (export_to_cache scenario_store scenario_acc) ->
     In c2 (export_to_cache scenario_store scenario_acc) ->
     cache_index c1 = cache_index c2 -> cache_end c1 = cache_end c2) /\
  (forall c, In c (export_to_cache scenario_store scenario_acc) ->
     cache_index c <= cache_end c).
Proof.
  apply (import_checks_table (mkImport scenario_store 2%nat (init 1))
           (fst (import_from_cache (mkImport scenario_store 2%nat (init 1))
                   (export_to_cache scenario_store scenario_acc) []))
           (export_to_cache scenario_store scenario_acc) []).
  reflexivity.
Defined.

Lemma export_row_same (h h' : store) (r r' : Row) :
  same_row h h' r r' -> export_row h r = export_row h' r'.
Proof.
  intros (Hi & He & Hv). destruct r as [i e secs], r' as [i' e' secs'].
  cbn in *. subst i' e'. unfold export_row. cbn [sections index row_end].
  revert secs' Hv. induction secs as [| a secs IH]; intros [| a' secs'] Hv;
    try discriminate; [reflexivity |].
  cbn in Hv. injection Hv as Ha Hv. cbn. rewrite Ha. f_equal. now apply IH.
Qed.

(** X15.  Exporting what was imported from an export gives the same
    table: for an accumulator whose keys increase strictly, whose records
    each have a key not after their end and at least one section, and
    whose sections have their bounds in order, the import of its exported
    table against its own chunk boundaries raises nothing and the new
    accumulator exports to exactly the table it was built from. *)
Theorem export_import_export (h : store) (next : addr) (self : GoodSectionsResults) :
  StronglySorted Z.lt (map index (_data self)) ->
  Forall (fun r => index r <= row_end r /\ sections r <> []) (_data self) ->
  Forall (fun a => TF.ordered (h a)) (concat (map sections (_data self))) ->
  exists st',
    import_from_cache (mkImport h next (init (max_sample_period_td self)))
      (export_to_cache h self) (chunk_boundaries_of self) = (st', None) /\
    export_to_cache (is_store st') (is_self st') = export_to_cache h self.
Proof.
  destruct self as [msp rows]. cbn [_data max_sample_period_td].
  intros Hsorted Hrows Hobj.
  rewrite Forall_forall in Hobj.
  assert (Himp : Forall (importable (exclusive h) (map boundary rows)) rows).
  { apply Forall_forall. intros r Hr. rewrite Forall_forall in Hrows.
    destruct (Hrows r Hr) as [Hle Hne]. apply list_elem_of_In in Hr.
    repeat split; [exact Hle | exact Hne | now apply mem_boundary |].
    apply Forall_forall. intros a Ha. split; [| reflexivity].
    apply (Hobj a). apply list_elem_of_In, in_concat. exists (sections r).
    split; [now apply in_map | now apply list_elem_of_In]. }
  rewrite <- export_exclusive.
  unfold import_from_cache, chunk_boundaries_of. cbn [_data].
  rewrite groupby_export; [| exact Hsorted |].
  2:{ eapply Forall_impl; [exact Hrows |]. now intros r [_ Hne]. }
  destruct (import_groups_export (exclusive h) (map boundary rows) rows Himp
              h next (init msp))
    as (h' & next' & rows' & Himport & _ & _ & HF & _).
  eexists. split; [exact Himport |].
  cbn [is_store is_self init Results.init _data app max_sample_period_td].
  unfold export_to_cache. cbn [_data]. f_equal.
  clear Himport Hsorted Hrows Hobj Himp.
  induction HF as [| r r' rest rest' Hr _ IH]; [reflexivity |].
  cbn. f_equal; [symmetry; now apply export_row_same | exact IH].
Qed.

Lemma export_import_export_witness :
  exists st',
    import_from_cache (mkImport scenario_store 2%nat (init (max_sample_period_td scenario_acc)))
      (export_to_cache scenario_store scenario_acc) (chunk_boundaries_of scenario_acc)
    = (st', None) /\
    export_to_cache (is_store st') (is_self st')
    = export_to_cache scenario_store scenario_acc.
Proof.
  apply (export_import_export scenario_store 2%nat scenario_acc).
  - cbn. repeat constructor; lia.
  - cbn. repeat constructor; (lia || discriminate).
  - cbn. unfold TF.ordered. repeat constructor.
Defined.
